(** * A shallow embedding of [merkle_tree.py]

    The Python module builds a binary hash tree over an ordered list of byte
    blocks, locates a block hash in it, extracts a membership proof and
    verifies such a proof against a root hash.

    Conventions of the embedding:
    - [bytes] values are lists of [Byte.byte];
    - a Python exception is an explicit outcome: [AssertionError] for the
      failed [assert] of [bytes_xor], [RecursionError] for a recursion of
      [_buildTreeRec] that does not end within the nesting allowed (the
      [fuel] of the builder counts its nested calls, and nothing else);
    - [Optional[X]] is [option X], with [None] for Python's [None];
    - the hash function is a parameter of every operation that receives or
      stores one. *)

From Stdlib Require Import List Bool Arith NArith ZArith Lia Permutation.
From Stdlib Require Import Init.Byte Strings.Byte.
From Stdlib Require Strings.String.
Import ListNotations.

(** ** Outcomes of a Python call *)

Inductive result (A : Type) : Type :=
| Ok (a : A)
| AssertionError
| RecursionError.

Arguments Ok {A} a.
Arguments AssertionError {A}.
Arguments RecursionError {A}.

Definition bind {A B : Type} (m : result A) (k : A -> result B) : result B :=
  match m with
  | Ok a => k a
  | AssertionError => AssertionError
  | RecursionError => RecursionError
  end.

Notation "'let*' x ':=' m 'in' k" := (bind m (fun x => k))
  (at level 10, x name, m at level 100, k at level 200).

(** ** Byte strings *)

Definition bytes : Type := list byte.

Definition HashFn : Type := bytes -> bytes.

Definition bytes_eqb (a b : bytes) : bool :=
  if list_eq_dec Byte.byte_eq_dec a b then true else false.

(** [_a ^ _b] on two integers of [range(256)]. *)
Definition byte_xor (a b : byte) : byte :=
  match Byte.of_N (N.lxor (Byte.to_N a) (Byte.to_N b)) with
  | Some c => c
  | None => x00
  end.

(** [[_a ^ _b for _a, _b in zip(a, b)]] *)
Definition zip_xor (a b : bytes) : bytes :=
  map (fun p => byte_xor (fst p) (snd p)) (combine a b).

Definition bytes_xor (a b : bytes) : result bytes :=
  if Nat.eqb (length a) (length b)
  then Ok (zip_xor a b)
  else AssertionError.

(** [verify_proof]: the loop over [reversed(proof)] is a right fold whose
    innermost step consumes the last entry of [proof]. *)
Fixpoint fold_proof (hash_fn : HashFn) (current_hash : bytes)
         (rev_proof : list bytes) : result bytes :=
  match rev_proof with
  | [] => Ok current_hash
  | sibling_hash :: rest =>
      let* x := bytes_xor current_hash sibling_hash in
      fold_proof hash_fn (hash_fn x) rest
  end.

Definition verify_proof (root_hash block_hash : bytes) (proof : list bytes)
           (hash_fn : HashFn) : result bool :=
  let* current_hash := fold_proof hash_fn block_hash (rev proof) in
  Ok (bytes_eqb current_hash root_hash).

(** ** Nodes *)

#[warnings="-register-all"]
Inductive Node : Type :=
  mkNode {
      left : option Node;
      right : option Node;
      value : bytes;
      content : bytes;
      is_copied : bool
    }.

(** [Node.copy] *)
Definition copy (self : Node) : Node :=
  mkNode (left self) (right self) (value self) (content self) true.

(** ** The tree builder *)

(** [nodes[-1]] *)
Fixpoint last_node (nodes : list Node) : option Node :=
  match nodes with
  | [] => None
  | [x] => Some x
  | _ :: rest => last_node rest
  end.

(** The first statement of [_buildTreeRec]:
    [if len(nodes) % 2 == 1: nodes.append(nodes[-1].copy())].
    A list of odd length is not empty, so the inner [None] is never met. *)
Definition pad (nodes : list Node) : list Node :=
  if Nat.eqb (length nodes mod 2) 1
  then match last_node nodes with
       | Some x => nodes ++ [copy x]
       | None => nodes
       end
  else nodes.

(** [Node(l, r, hash_fn(bytes_xor(l.value, r.value)), l.content + r.content)] *)
Definition join (hash_fn : HashFn) (l r : Node) : result Node :=
  let* x := bytes_xor (value l) (value r) in
  Ok (mkNode (Some l) (Some r) (hash_fn x) (content l ++ content r) false).

Fixpoint _buildTreeRec (hash_fn : HashFn) (fuel : nat) (nodes : list Node)
  : result Node :=
  match fuel with
  | O => RecursionError
  | S fuel' =>
      let nodes := pad nodes in
      let half := length nodes / 2 in
      match nodes with
      | [n0; n1] => join hash_fn n0 n1
      | _ =>
          let* l := _buildTreeRec hash_fn fuel' (firstn half nodes) in
          let* r := _buildTreeRec hash_fn fuel' (skipn half nodes) in
          join hash_fn l r
      end
  end.

Definition leaf (hash_fn : HashFn) (e : bytes) : Node :=
  mkNode None None (hash_fn e) e false.

Definition _buildTree (hash_fn : HashFn) (fuel : nat) (values : list bytes)
  : result Node :=
  _buildTreeRec hash_fn fuel (map (leaf hash_fn) values).

(** The [root] property of [MerkleTree]. *)
Definition root (_root : Node) : Node := copy _root.

(** ** Tree utilities *)

Definition compare_trees (_root other_root : Node) : bool :=
  bytes_eqb (value _root) (value other_root).

(** Every recursive walk of the class takes an [Optional[Node]] and starts
    with [if node is None: return ...]; [on_node] is that test. *)
Definition on_node {A : Type} (node : option Node) (none : A) (some : Node -> A)
  : A :=
  match node with
  | None => none
  | Some n => some n
  end.

Fixpoint verify_block_node (node : Node) (block_hash : bytes) : bool :=
  bytes_eqb (value node) block_hash
  || on_node (left node) false (fun l => verify_block_node l block_hash)
  || on_node (right node) false (fun r => verify_block_node r block_hash).

Definition _verify_block_rec (node : option Node) (block_hash : bytes) : bool :=
  on_node node false (fun n => verify_block_node n block_hash).

Definition verify_block (_root : Node) (root_hash block_hash : bytes) : bool :=
  bytes_eqb (value _root) root_hash && _verify_block_rec (Some _root) block_hash.

(** ** Locator *)

Fixpoint get_location_node (node : Node) (block_hash : bytes) (path : list Z)
  : option (list Z) :=
  if bytes_eqb (value node) block_hash && negb (is_copied node)
  then Some path
  else
    match on_node (left node) None
            (fun l => get_location_node l block_hash (path ++ [0%Z])) with
    | Some left_path => Some left_path
    | None =>
        match on_node (right node) None
                (fun r => get_location_node r block_hash (path ++ [1%Z])) with
        | Some right_path => Some right_path
        | None => None
        end
    end.

Definition _get_location_rec (node : option Node) (block_hash : bytes)
           (path : list Z) : option (list Z) :=
  on_node node None (fun n => get_location_node n block_hash path).

Definition get_location (_root : Node) (block_hash : bytes) : option (list Z) :=
  _get_location_rec (Some _root) block_hash [].

(** ** Proof generator *)

(** [proof.append(x)] on the list threaded through the recursion is
    [proof ++ [x]]; the list is created by [get_proof] and has no other
    holder. *)
Fixpoint get_proof_node (node : Node) (location : list Z) (index : nat)
         (proof : list bytes) : option (list bytes) :=
  match nth_error location index with
  | None => Some proof
  | Some bit =>
      match right node, Z.eqb bit 0 with
      | Some r, true =>
          on_node (left node) (Some (proof ++ [value r]))
            (fun l => get_proof_node l location (S index) (proof ++ [value r]))
      | _, _ =>
          match left node, Z.eqb bit 1 with
          | Some l, true =>
              on_node (right node) (Some (proof ++ [value l]))
                (fun r => get_proof_node r location (S index) (proof ++ [value l]))
          | _, _ => None
          end
      end
  end.

Definition _get_proof_rec (node : option Node) (location : list Z)
           (index : nat) (proof : list bytes) : option (list bytes) :=
  on_node node (Some proof) (fun n => get_proof_node n location index proof).

Definition get_proof (_root : Node) (block_hash : bytes) : option (list bytes) :=
  match get_location _root block_hash with
  | None => None
  | Some location => _get_proof_rec (Some _root) location 0 []
  end.

(** ** Vocabulary of the specification *)

(** The child selected by a direction bit. *)
Definition child (n : Node) (bit : Z) : option Node :=
  if Z.eqb bit 0 then left n
  else if Z.eqb bit 1 then right n
  else None.

(** The node reached from [n] by a path of direction bits. *)
Fixpoint node_at (n : Node) (path : list Z) : option Node :=
  match path with
  | [] => Some n
  | bit :: rest =>
      match child n bit with
      | Some c => node_at c rest
      | None => None
      end
  end.

(** All nodes of the tree rooted at [n], in depth-first left-to-right order. *)
Fixpoint descendants (n : Node) : list Node :=
  n :: on_node (left n) [] descendants ++ on_node (right n) [] descendants.

Definition is_leaf (n : Node) : bool :=
  match left n, right n with
  | None, None => true
  | _, _ => false
  end.

Definition is_internal (n : Node) : bool :=
  match left n, right n with
  | Some _, Some _ => true
  | _, _ => false
  end.

(** The leaves of the tree rooted at [n], left to right. *)
Definition frontier (n : Node) : list Node :=
  filter is_leaf (descendants n).

(** A node matches a target hash in the sense of the Locator. *)
Definition matches (block_hash : bytes) (n : Node) : bool :=
  bytes_eqb (value n) block_hash && negb (is_copied n).

(** Depth-first, left-before-right order on paths: a path comes before its
    extensions, and a turn to the left before a turn to the right. *)
Fixpoint dfs_le (p q : list Z) : Prop :=
  match p, q with
  | [], _ => True
  | _ :: _, [] => False
  | a :: p', b :: q' => (a < b)%Z \/ (a = b /\ dfs_le p' q')
  end.

(** Trees as the builder makes them. [shape hash_fn Q t]: [t] is one of the
    nodes the builder was given, all of which satisfy [Q], or the parent
    that [join] makes of two such trees. *)
Inductive shape (hash_fn : HashFn) (Q : Node -> Prop) : Node -> Prop :=
| shape_given n : Q n -> shape hash_fn Q n
| shape_join l r :
    shape hash_fn Q l -> shape hash_fn Q r ->
    length (value l) = length (value r) ->
    shape hash_fn Q
          (mkNode (Some l) (Some r) (hash_fn (zip_xor (value l) (value r)))
                  (content l ++ content r) false).

(** The leaves [_buildTree] makes of its blocks, and their copies. *)
Definition block_leaf (hash_fn : HashFn) (values : list bytes) (n : Node) : Prop :=
  left n = None /\ right n = None
  /\ value n = hash_fn (content n) /\ In (content n) values.

(** The lengths [verify_proof] needs for its calls of [bytes_xor] to pass
    their assertion, for a hash function with outputs of length [L]: the
    last entry of the proof, combined first, is as long as the block hash,
    and every other entry is as long as a hash. *)
Definition lengths_agree (L : nat) (block_hash : bytes) (proof : list bytes)
  : Prop :=
  match rev proof with
  | [] => True
  | s :: rest =>
      length s = length block_hash /\ Forall (fun x => length x = L) rest
  end.

(** The hash [verify_proof] compares with the root hash when no combination
    fails: from the block hash, each entry of the proof, the last first, is
    combined with the running hash and the result is hashed. *)
Definition folded_hash (hash_fn : HashFn) (block_hash : bytes)
           (proof : list bytes) : bytes :=
  fold_left (fun current_hash sibling_hash =>
               hash_fn (zip_xor current_hash sibling_hash))
            (rev proof) block_hash.



(** No internal node of the tree carries the hash of one of the blocks. *)
Definition no_internal_collision (hash_fn : HashFn) (t : Node)
           (values : list bytes) : bool :=
  forallb (fun n =>
             negb (is_internal n)
             || forallb (fun b => negb (bytes_eqb (value n) (hash_fn b))) values)
          (descendants t).

(** A perfect binary tree of the given depth: every node above the last
    level has its two children, and the nodes of the last level have none. *)
Fixpoint perfect (depth : nat) (t : Node) : Prop :=
  match depth with
  | O => left t = None /\ right t = None
  | S d =>
      exists l r,
        left t = Some l /\ right t = Some r /\ perfect d l /\ perfect d r
  end.

(** The depth of the tree built of [n] blocks. *)
Definition tree_depth (n : nat) : nat := Nat.max 1 (Nat.log2_up n).


(** ** A small hash function for concrete runs

    Two bytes of output whatever the input: a pair of polynomial checksums. *)

Definition byte_of_N (n : N) : byte :=
  match Byte.of_N n with
  | Some c => c
  | None => x00
  end.

Definition checksum (mul add modulus seed : N) (data : bytes) : N :=
  fold_left (fun acc c => ((acc * mul + Byte.to_N c + add) mod modulus)%N)
            data seed.

Definition toy_hash : HashFn :=
  fun data => [byte_of_N (checksum 31 7 256 5 data);
               byte_of_N (checksum 17 3 251 11 data)].

(** A hash function without a fixed output length: the data itself. *)
Definition identity_hash : HashFn := fun data => data.

(** The blocks of the test suite. *)
Module Blocks.
Import String.

Definition poets : list bytes :=
  map list_byte_of_string
      ["Li Bai"; "Du Fu"; "Wang Wei"; "Bai Juyi";
       "Su Shi"; "Li Shangyin"; "Li Qingzhao"; "Wang Anshi"]%string.

Definition invalid : bytes := list_byte_of_string "invalid"%string.
End Blocks.

Definition poets : list bytes := Blocks.poets.
Definition invalid : bytes := Blocks.invalid.

Definition tree_of (r : result Node) : Node :=
  match r with
  | Ok t => t
  | _ => mkNode None None [] [] false
  end.

(** The trees of the eight blocks, of the first two and of the first one. *)
Definition poets_tree : Node := tree_of (_buildTree toy_hash 8 poets).
Definition pair_tree : Node := tree_of (_buildTree toy_hash 2 (firstn 2 poets)).

(** * Properties *)

(** ** Byte strings and the combine operation *)

Lemma bytes_eqb_eq (a b : bytes) : bytes_eqb a b = true <-> a = b.
Proof.
  unfold bytes_eqb. destruct (list_eq_dec byte_eq_dec a b); split; congruence.
Qed.

Lemma bytes_eqb_refl (a : bytes) : bytes_eqb a a = true.
Proof. now apply bytes_eqb_eq. Qed.

Lemma bytes_eqb_neq (a b : bytes) : bytes_eqb a b = false <-> a <> b.
Proof.
  unfold bytes_eqb. destruct (list_eq_dec byte_eq_dec a b); split; congruence.
Qed.

(** The exclusive-or of two bytes is a byte: the default of [byte_xor] is
    never used. *)
Lemma byte_xor_to_N (a b : byte) :
  Byte.to_N (byte_xor a b) = N.lxor (Byte.to_N a) (Byte.to_N b).
Proof.
  unfold byte_xor.
  destruct (Byte.of_N (N.lxor (Byte.to_N a) (Byte.to_N b))) as [c|] eqn:E.
  - now apply Byte.to_of_N.
  - exfalso. apply Byte.of_N_None_iff in E.
    pose proof (Byte.to_N_bounded a) as Ba.
    pose proof (Byte.to_N_bounded b) as Bb.
    pose proof (N.log2_lxor (Byte.to_N a) (Byte.to_N b)) as Lx.
    assert (forall n, (n <= 255)%N -> (N.log2 n < 8)%N) as Small.
    { intros n Hn. destruct (N.eq_dec n 0) as [->|Nz]; [reflexivity|].
      apply N.log2_lt_pow2; [lia|]. change (2 ^ 8)%N with 256%N. lia. }
    apply Small in Ba, Bb.
    assert (N.log2 (N.lxor (Byte.to_N a) (Byte.to_N b)) < 8)%N as Lt by lia.
    apply N.log2_lt_pow2 in Lt; [|lia]. change (2 ^ 8)%N with 256%N in Lt. lia.
Qed.

Lemma byte_xor_comm (a b : byte) : byte_xor a b = byte_xor b a.
Proof. unfold byte_xor. now rewrite N.lxor_comm. Qed.

Lemma zip_xor_comm (a b : bytes) : zip_xor a b = zip_xor b a.
Proof.
  unfold zip_xor. revert b.
  induction a as [|x a IH]; intros [|y b]; simpl; trivial.
  now rewrite byte_xor_comm, IH.
Qed.

Lemma bytes_xor_comm (a b : bytes) : bytes_xor a b = bytes_xor b a.
Proof.
  unfold bytes_xor. rewrite (Nat.eqb_sym (length a)), zip_xor_comm. reflexivity.
Qed.

Lemma bytes_xor_same_length (a b : bytes) :
  length a = length b -> bytes_xor a b = Ok (zip_xor a b).
Proof. intros E. unfold bytes_xor. now rewrite E, Nat.eqb_refl. Qed.

Lemma bytes_xor_Ok (a b x : bytes) :
  bytes_xor a b = Ok x -> length a = length b /\ x = zip_xor a b.
Proof.
  unfold bytes_xor. destruct (Nat.eqb_spec (length a) (length b)); [|discriminate].
  intros [= <-]. now split.
Qed.

Lemma bytes_xor_mismatch (a b : bytes) :
  length a <> length b -> bytes_xor a b = AssertionError.
Proof.
  intros E. unfold bytes_xor. now destruct (Nat.eqb_spec (length a) (length b)).
Qed.

Lemma bind_Ok {A B : Type} (m : result A) (k : A -> result B) (b : B) :
  bind m k = Ok b -> exists a, m = Ok a /\ k a = Ok b.
Proof. destruct m; simpl; try discriminate. eauto. Qed.

(** ** Induction over nodes

    [Node] is nested in [option], so the induction principle carries the
    hypotheses for the children that are present. *)

Lemma Node_ind' (P : Node -> Prop) :
  (forall n,
      (forall l, left n = Some l -> P l) ->
      (forall r, right n = Some r -> P r) ->
      P n) ->
  forall n, P n.
Proof.
  intros step. fix IH 1. intros [l r v c d]. apply step; simpl.
  - destruct l as [l0|]; intros x [= <-]. apply IH.
  - destruct r as [r0|]; intros x [= <-]. apply IH.
Qed.

(** ** The padding step *)

Lemma last_node_In (nodes : list Node) (x : Node) :
  last_node nodes = Some x -> In x nodes.
Proof.
  induction nodes as [|a [|b rest] IH]; simpl; intros E.
  - discriminate.
  - injection E as ->. now left.
  - right. now apply IH.
Qed.

Lemma last_node_cons (nodes : list Node) :
  nodes <> [] -> exists x, last_node nodes = Some x.
Proof.
  induction nodes as [|a [|b rest] IH]; intros NE.
  - contradiction.
  - now exists a.
  - destruct IH as [x E]; [discriminate|]. now exists x.
Qed.

Lemma pad_even (nodes : list Node) :
  length nodes mod 2 = 0 -> pad nodes = nodes.
Proof. intros E. unfold pad. now rewrite E. Qed.

Lemma pad_odd (nodes : list Node) :
  length nodes mod 2 = 1 ->
  exists x, last_node nodes = Some x /\ pad nodes = nodes ++ [copy x].
Proof.
  intros E. unfold pad. rewrite E. simpl.
  destruct (last_node_cons nodes) as [x Ex].
  - intros ->. discriminate.
  - exists x. now rewrite Ex.
Qed.

Lemma parity_cases (n : nat) : n mod 2 = 0 \/ n mod 2 = 1.
Proof. pose proof (Nat.mod_upper_bound n 2). lia. Qed.

Lemma pad_length (nodes : list Node) :
  length (pad nodes) = length nodes + length nodes mod 2.
Proof.
  destruct (parity_cases (length nodes)) as [E|E].
  - rewrite (pad_even _ E), E. lia.
  - destruct (pad_odd _ E) as (x & _ & ->). rewrite length_app, E. reflexivity.
Qed.

Lemma pad_length_even (nodes : list Node) : length (pad nodes) mod 2 = 0.
Proof.
  rewrite pad_length.
  pose proof (Nat.div_mod_eq (length nodes) 2).
  pose proof (Nat.mod_upper_bound (length nodes) 2).
  destruct (parity_cases (length nodes)) as [E|E]; rewrite E in *.
  - now rewrite Nat.add_0_r.
  - replace (length nodes + 1) with (0 + (length nodes / 2 + 1) * 2) by lia.
    now rewrite Nat.Div0.mod_add.
Qed.

Lemma pad_incl (nodes : list Node) (n : Node) : In n nodes -> In n (pad nodes).
Proof.
  intros I. destruct (parity_cases (length nodes)) as [E|E].
  - now rewrite pad_even.
  - destruct (pad_odd _ E) as (x & _ & ->). apply in_or_app. now left.
Qed.

Lemma pad_In (nodes : list Node) (n : Node) :
  In n (pad nodes) -> In n nodes \/ exists x, In x nodes /\ n = copy x.
Proof.
  destruct (parity_cases (length nodes)) as [E|E].
  - rewrite pad_even by trivial. now left.
  - destruct (pad_odd _ E) as (x & L & ->). intros I.
    apply in_app_or in I as [I|[<-|[]]]; [now left|].
    right. exists x. split; trivial. now apply last_node_In.
Qed.

Lemma pad_Forall (Q : Node -> Prop) (nodes : list Node) :
  (forall x, Q x -> Q (copy x)) -> Forall Q nodes -> Forall Q (pad nodes).
Proof.
  intros C F. rewrite Forall_forall in *. intros n I.
  apply pad_In in I as [I|(x & I & ->)]; auto.
Qed.

Lemma pad_nil_inv (nodes : list Node) : pad nodes = [] -> nodes = [].
Proof.
  intros E. pose proof (pad_length nodes) as L. rewrite E in L. simpl in L.
  destruct nodes; [trivial|simpl in L; lia].
Qed.

(** A padded group has two elements, or splits at its midpoint into two
    halves of the same size, at least two. *)
Lemma halves (g : list Node) :
  length g mod 2 = 0 -> g <> [] ->
  (exists n0 n1, g = [n0; n1])
  \/ (let half := length g / 2 in
      2 <= half /\ length g = 2 * half
      /\ length (firstn half g) = half /\ length (skipn half g) = half
      /\ firstn half g ++ skipn half g = g).
Proof.
  intros E NE.
  pose proof (Nat.div_mod_eq (length g) 2) as D. rewrite E in D.
  destruct g as [|n0 [|n1 [|n2 rest]]].
  - contradiction.
  - discriminate.
  - left. now exists n0, n1.
  - right. cbv zeta. set (g := n0 :: n1 :: n2 :: rest) in *.
    assert (3 <= length g) by (unfold g; simpl; lia).
    rewrite length_firstn, length_skipn, firstn_skipn.
    repeat split; lia.
Qed.

(** ** The builder *)

Section Builder.
Variable hash_fn : HashFn.

Lemma join_Ok (l r t : Node) :
  join hash_fn l r = Ok t ->
  length (value l) = length (value r)
  /\ t = mkNode (Some l) (Some r) (hash_fn (zip_xor (value l) (value r)))
                (content l ++ content r) false.
Proof.
  unfold join. intros E. apply bind_Ok in E as (x & Ex & [= <-]).
  apply bytes_xor_Ok in Ex as [? ->]. now split.
Qed.

Lemma join_same_length (l r : Node) :
  length (value l) = length (value r) ->
  join hash_fn l r =
  Ok (mkNode (Some l) (Some r) (hash_fn (zip_xor (value l) (value r)))
             (content l ++ content r) false).
Proof. intros E. unfold join. now rewrite bytes_xor_same_length. Qed.

Lemma build_two (fuel : nat) (nodes : list Node) (n0 n1 : Node) :
  pad nodes = [n0; n1] ->
  _buildTreeRec hash_fn (S fuel) nodes = join hash_fn n0 n1.
Proof. intros E. simpl. now rewrite E. Qed.

Lemma build_split (fuel : nat) (nodes : list Node) :
  length (pad nodes) <> 2 ->
  _buildTreeRec hash_fn (S fuel) nodes =
  let g := pad nodes in
  let half := length g / 2 in
  let* l := _buildTreeRec hash_fn fuel (firstn half g) in
  let* r := _buildTreeRec hash_fn fuel (skipn half g) in
  join hash_fn l r.
Proof.
  intros NE. simpl.
  destruct (pad nodes) as [|n0 [|n1 [|n2 rest]]]; trivial.
  now contradiction NE.
Qed.

(** On an empty group the recursion never reaches a base case: Python
    ends it with a [RecursionError], whatever the depth allowed. *)
Lemma build_nil (fuel : nat) : _buildTreeRec hash_fn fuel [] = RecursionError.
Proof.
  induction fuel as [|fuel IH]; trivial.
  rewrite build_split by (simpl; lia). simpl. now rewrite IH.
Qed.

(** Induction along the calls of [_buildTreeRec] that return a node. *)
Lemma build_ind (P : list Node -> Node -> Prop) :
  (forall nodes n0 n1 t,
      pad nodes = [n0; n1] -> join hash_fn n0 n1 = Ok t -> P nodes t) ->
  (forall nodes l r t,
      let g := pad nodes in
      let half := length g / 2 in
      2 <= half -> length g = 2 * half ->
      length (firstn half g) = half -> length (skipn half g) = half ->
      P (firstn half g) l -> P (skipn half g) r ->
      join hash_fn l r = Ok t -> P nodes t) ->
  forall fuel nodes t, _buildTreeRec hash_fn fuel nodes = Ok t -> P nodes t.
Proof.
  intros Base Step. induction fuel as [|fuel IH]; intros nodes t E.
  - discriminate.
  - destruct nodes as [|a nodes']; [now rewrite build_nil in E|].
    set (nodes := a :: nodes') in *.
    destruct (halves (pad nodes)) as [(n0 & n1 & Eg)|(H2 & Hl & Hf & Hs & _)].
    + apply pad_length_even.
    + intros Eg. now apply pad_nil_inv in Eg.
    + rewrite (build_two _ _ _ _ Eg) in E. eapply Base; eauto.
    + rewrite build_split in E by lia. cbv zeta in E.
      apply bind_Ok in E as (l & El & E). apply bind_Ok in E as (r & Er & E).
      eapply Step; eauto.
Qed.

(** More depth never changes a returned node. *)
Lemma build_fuel_mono (fuel : nat) :
  forall nodes t fuel',
    _buildTreeRec hash_fn fuel nodes = Ok t -> fuel <= fuel' ->
    _buildTreeRec hash_fn fuel' nodes = Ok t.
Proof.
  induction fuel as [|fuel IH]; intros nodes t fuel' E Le; [discriminate|].
  destruct fuel' as [|fuel']; [lia|].
  destruct (Nat.eq_dec (length (pad nodes)) 2) as [E2|NE2].
  - destruct (pad nodes) as [|n0 [|n1 [|? ?]]] eqn:Eg; try discriminate.
    rewrite (build_two _ _ _ _ Eg) in E. now rewrite (build_two _ _ _ _ Eg).
  - rewrite build_split in E by trivial. rewrite build_split by trivial.
    cbv zeta in *.
    apply bind_Ok in E as (l & El & E). apply bind_Ok in E as (r & Er & E).
    rewrite (IH _ _ fuel' El), (IH _ _ fuel' Er) by lia. exact E.
Qed.

Lemma build_deterministic (fuel fuel' : nat) (nodes : list Node) (t t' : Node) :
  _buildTreeRec hash_fn fuel nodes = Ok t ->
  _buildTreeRec hash_fn fuel' nodes = Ok t' ->
  t = t'.
Proof.
  intros E E'.
  apply build_fuel_mono with (fuel' := max fuel fuel') in E; [|lia].
  apply build_fuel_mono with (fuel' := max fuel fuel') in E'; [|lia].
  congruence.
Qed.

(** With a hash of fixed output length the builder returns a node on every
    non-empty group, as soon as the depth allowed reaches the group's size. *)
Section FixedLength.
Variable L : nat.
Hypothesis hash_length : forall x, length (hash_fn x) = L.

Lemma build_total (fuel : nat) :
  forall nodes,
    nodes <> [] -> length nodes <= fuel ->
    Forall (fun n => length (value n) = L) nodes ->
    exists t, _buildTreeRec hash_fn fuel nodes = Ok t
              /\ length (value t) = L.
Proof.
  induction fuel as [|fuel IH]; intros nodes NE Le F.
  - destruct nodes; [contradiction|simpl in Le; lia].
  - assert (Fp : Forall (fun n => length (value n) = L) (pad nodes))
      by (apply pad_Forall; trivial).
    pose proof (pad_length nodes) as PL.
    pose proof (Nat.mod_upper_bound (length nodes) 2) as MB.
    destruct (halves (pad nodes)) as [(n0 & n1 & Eg)|(H2 & Hl & Hf & Hs & Ha)].
    + apply pad_length_even.
    + intros Eg. now apply pad_nil_inv in Eg.
    + rewrite (build_two _ _ _ _ Eg). rewrite Eg in Fp.
      inversion Fp as [|? ? V0 Fp']. inversion Fp' as [|? ? V1 _]. subst.
      rewrite join_same_length by congruence.
      eexists. split; [reflexivity|]. simpl. apply hash_length.
    + rewrite build_split by lia. cbv zeta.
      rewrite <- Ha in Fp. apply Forall_app in Fp as [Ff Fs].
      destruct (IH (firstn (length (pad nodes) / 2) (pad nodes)))
        as (l & -> & Ll); trivial.
      { intros E0. rewrite E0 in Hf. cbn [length] in Hf. lia. }
      { lia. }
      destruct (IH (skipn (length (pad nodes) / 2) (pad nodes)))
        as (r & -> & Lr); trivial.
      { intros E0. rewrite E0 in Hs. cbn [length] in Hs. lia. }
      { lia. }
      simpl. rewrite join_same_length by congruence.
      eexists. split; [reflexivity|]. simpl. apply hash_length.
Qed.

Lemma buildTree_total (fuel : nat) (values : list bytes) :
  values <> [] -> length values <= fuel ->
  exists t, _buildTree hash_fn fuel values = Ok t.
Proof.
  intros NE Le. unfold _buildTree.
  destruct (build_total fuel (map (leaf hash_fn) values)) as (t & E & _).
  - destruct values; [contradiction|discriminate].
  - now rewrite length_map.
  - apply Forall_forall. intros n I. apply in_map_iff in I as (e & <- & _).
    apply hash_length.
  - now exists t.
Qed.
End FixedLength.
End Builder.

(** ** Paths and nodes of a tree *)

Lemma child_left (n : Node) : child n 0 = left n.
Proof. reflexivity. Qed.

Lemma child_right (n : Node) : child n 1 = right n.
Proof. reflexivity. Qed.

Lemma child_cases (n c : Node) (bit : Z) :
  child n bit = Some c ->
  (bit = 0%Z /\ left n = Some c) \/ (bit = 1%Z /\ right n = Some c).
Proof.
  unfold child. destruct (Z.eqb_spec bit 0); [now left|].
  destruct (Z.eqb_spec bit 1); [now right|discriminate].
Qed.

Lemma descendants_self (n : Node) : In n (descendants n).
Proof. destruct n. now left. Qed.

Lemma descendants_left (n l m : Node) :
  left n = Some l -> In m (descendants l) -> In m (descendants n).
Proof.
  destruct n as [l0 r0 v c d]. simpl. intros -> I.
  right. apply in_or_app. now left.
Qed.

Lemma descendants_right (n r m : Node) :
  right n = Some r -> In m (descendants r) -> In m (descendants n).
Proof.
  destruct n as [l0 r0 v c d]. simpl. intros -> I.
  right. apply in_or_app. now right.
Qed.

Lemma descendants_node_at (n m : Node) :
  In m (descendants n) <-> exists q, node_at n q = Some m.
Proof.
  split.
  - revert m. induction n as [n IHl IHr] using Node_ind'. intros m I.
    destruct n as [l r v c d]. simpl in *.
    destruct I as [<-|I]; [now exists []|].
    apply in_app_or in I as [I|I].
    + destruct l as [l0|]; [|contradiction].
      destruct (IHl l0 eq_refl m I) as [q E]. now exists (0%Z :: q).
    + destruct r as [r0|]; [|contradiction].
      destruct (IHr r0 eq_refl m I) as [q E]. now exists (1%Z :: q).
  - intros [q E]. revert n E. induction q as [|bit q IH]; intros n E.
    + injection E as ->. destruct m. now left.
    + simpl in E. destruct (child n bit) as [c|] eqn:C; [|discriminate].
      apply IH in E. destruct n as [l r v ct d].
      apply child_cases in C as [[_ C]|[_ C]]; simpl in C; subst; simpl;
        right; apply in_or_app; [left|right]; exact E.
Qed.

(** ** The Locator *)

Section Locator.
Variable block_hash : bytes.

Lemma locate_step (n : Node) (path : list Z) :
  get_location_node n block_hash path =
  if matches block_hash n then Some path
  else match _get_location_rec (left n) block_hash (path ++ [0%Z]) with
       | Some left_path => Some left_path
       | None => _get_location_rec (right n) block_hash (path ++ [1%Z])
       end.
Proof.
  destruct n as [l r v c d]. unfold matches, _get_location_rec. simpl.
  destruct (bytes_eqb v block_hash && negb d); trivial.
  destruct (on_node l None _); trivial.
  now destruct (on_node r None _).
Qed.

(** A search that fails has met no matching node. *)
Lemma locate_none (n : Node) :
  forall path,
    get_location_node n block_hash path = None ->
    forall q m, node_at n q = Some m -> matches block_hash m = false.
Proof.
  induction n as [n IHl IHr] using Node_ind'. intros path E q m A.
  rewrite locate_step in E.
  destruct (matches block_hash n) eqn:M; [discriminate|].
  destruct q as [|bit q]; [now injection A as <-|].
  simpl in A. destruct (child n bit) as [c|] eqn:C; [|discriminate].
  apply child_cases in C as [[_ C]|[_ C]]; rewrite C in E; simpl in E.
  - destruct (get_location_node c block_hash (path ++ [0%Z])) eqn:El;
      [discriminate|]. eapply IHl; eauto.
  - destruct (_get_location_rec (left n) block_hash (path ++ [0%Z]));
      [discriminate|]. eapply IHr; eauto.
Qed.

(** A search that succeeds returns the path, below the prefix it was
    given, of a matching node, and that node is the first one in
    depth-first left-to-right order. *)
Lemma locate_sound (n : Node) :
  forall path p,
    get_location_node n block_hash path = Some p ->
    exists q m,
      p = path ++ q /\ node_at n q = Some m /\ matches block_hash m = true
      /\ forall q' m', node_at n q' = Some m' ->
                       matches block_hash m' = true -> dfs_le q q'.
Proof.
  induction n as [n IHl IHr] using Node_ind'. intros path p E.
  rewrite locate_step in E.
  destruct (matches block_hash n) eqn:M.
  - injection E as <-. exists [], n. rewrite app_nil_r. simpl. auto.
  - destruct (left n) as [l|] eqn:Ln; simpl in E.
    + destruct (get_location_node l block_hash (path ++ [0%Z])) as [lp|] eqn:El.
      * injection E as <-.
        destruct (IHl l eq_refl _ _ El) as (q & m & -> & A & Mm & First).
        exists (0%Z :: q), m. rewrite <- app_assoc. simpl.
        rewrite child_left, Ln. repeat split; trivial.
        intros [|bit q'] m' A' M'; [injection A' as <-; congruence|].
        simpl in A'. destruct (child n bit) as [c|] eqn:C; [|discriminate].
        apply child_cases in C as [[-> C]|[-> C]]; simpl.
        -- right. split; trivial. rewrite Ln in C. injection C as <-. eauto.
        -- left. lia.
      * destruct (right n) as [r|] eqn:Rn; simpl in E; [|discriminate].
        destruct (IHr r eq_refl _ _ E) as (q & m & -> & A & Mm & First).
        exists (1%Z :: q), m. rewrite <- app_assoc. simpl.
        rewrite child_right, Rn. repeat split; trivial.
        intros [|bit q'] m' A' M'; [injection A' as <-; congruence|].
        simpl in A'. destruct (child n bit) as [c|] eqn:C; [|discriminate].
        apply child_cases in C as [[-> C]|[-> C]]; simpl.
        -- rewrite Ln in C. injection C as <-.
           rewrite (locate_none _ _ El _ _ A') in M'. discriminate.
        -- right. split; trivial. rewrite Rn in C. injection C as <-. eauto.
    + destruct (right n) as [r|] eqn:Rn; simpl in E; [|discriminate].
      destruct (IHr r eq_refl _ _ E) as (q & m & -> & A & Mm & First).
      exists (1%Z :: q), m. rewrite <- app_assoc. simpl.
      rewrite child_right, Rn. repeat split; trivial.
      intros [|bit q'] m' A' M'; [injection A' as <-; congruence|].
      simpl in A'. destruct (child n bit) as [c|] eqn:C; [|discriminate].
      apply child_cases in C as [[-> C]|[-> C]]; simpl.
      -- congruence.
      -- right. split; trivial. rewrite Rn in C. injection C as <-. eauto.
Qed.

(** The search finds a node as soon as one matches. *)
Lemma locate_complete (n m : Node) (path : list Z) :
  In m (descendants n) -> matches block_hash m = true ->
  exists p, get_location_node n block_hash path = Some p.
Proof.
  intros I M. apply descendants_node_at in I as [q A].
  destruct (get_location_node n block_hash path) as [p|] eqn:E; [now exists p|].
  rewrite (locate_none _ _ E _ _ A) in M. discriminate.
Qed.
End Locator.

(** ** Trees as the builder makes them *)

Section Shape.
Variable hash_fn : HashFn.

Lemma shape_inv (Q : Node -> Prop) (t : Node) :
  shape hash_fn Q t ->
  Q t \/ exists l r,
      left t = Some l /\ right t = Some r /\ shape hash_fn Q l /\ shape hash_fn Q r
      /\ length (value l) = length (value r)
      /\ value t = hash_fn (zip_xor (value l) (value r))
      /\ content t = content l ++ content r
      /\ is_copied t = false.
Proof.
  intros [n Qn|l r Sl Sr E]; [now left|].
  right. exists l, r. simpl. repeat split; trivial.
Qed.

Lemma build_shape (Q : Node -> Prop) :
  (forall x, Q x -> Q (copy x)) ->
  forall fuel nodes t,
    _buildTreeRec hash_fn fuel nodes = Ok t -> Forall Q nodes -> shape hash_fn Q t.
Proof.
  intros C fuel nodes t E.
  eapply (build_ind hash_fn
            (fun nodes t => Forall Q nodes -> shape hash_fn Q t));
    [| |exact E]; clear fuel nodes t E.
  - intros nodes n0 n1 t Eg J F.
    apply (pad_Forall _ _ C) in F. rewrite Eg in F.
    inversion F as [|? ? Q0 F']. inversion F' as [|? ? Q1 _]. subst.
    apply join_Ok in J as [El ->]. apply shape_join; trivial; now apply shape_given.
  - intros nodes l r t g half _ _ _ _ IHl IHr J F.
    apply (pad_Forall _ _ C) in F. fold g in F.
    rewrite <- (firstn_skipn half g) in F. apply Forall_app in F as [Ff Fs].
    apply join_Ok in J as [El ->]. apply shape_join; auto.
Qed.

(** Every node handed to the builder is a node of the tree it returns. *)
Lemma build_contains :
  forall fuel nodes t,
    _buildTreeRec hash_fn fuel nodes = Ok t ->
    forall n, In n nodes -> In n (descendants t).
Proof.
  intros fuel nodes t E.
  eapply (build_ind hash_fn
            (fun nodes t => forall n, In n nodes -> In n (descendants t)));
    [| |exact E]; clear fuel nodes t E.
  - intros nodes n0 n1 t Eg J n I.
    apply pad_incl in I. rewrite Eg in I.
    apply join_Ok in J as [_ ->].
    destruct I as [<-|[<-|[]]];
      [eapply descendants_left|eapply descendants_right];
      try reflexivity; apply descendants_self.
  - intros nodes l r t g half _ _ _ _ IHl IHr J n I.
    apply pad_incl in I. fold g in I.
    rewrite <- (firstn_skipn half g) in I.
    apply join_Ok in J as [_ ->].
    apply in_app_or in I as [I|I];
      [eapply descendants_left|eapply descendants_right];
      try reflexivity; auto.
Qed.

(** The node the builder returns is always a freshly made parent. *)
Lemma build_root :
  forall fuel nodes t,
    _buildTreeRec hash_fn fuel nodes = Ok t ->
    exists l r,
      length (value l) = length (value r)
      /\ t = mkNode (Some l) (Some r) (hash_fn (zip_xor (value l) (value r)))
                    (content l ++ content r) false.
Proof.
  intros fuel nodes t E.
  eapply (build_ind hash_fn
            (fun _ t =>
                 exists l r,
                   length (value l) = length (value r)
                   /\ t = mkNode (Some l) (Some r)
                                 (hash_fn (zip_xor (value l) (value r)))
                                 (content l ++ content r) false));
    [| |exact E]; clear fuel nodes t E.
  - intros nodes n0 n1 t _ J. apply join_Ok in J. now exists n0, n1.
  - intros nodes l r t g half _ _ _ _ _ _ J. apply join_Ok in J. now exists l, r.
Qed.

(** ** Extracting and folding a proof *)

Lemma fold_proof_app (current_hash : bytes) (a b : list bytes) :
  fold_proof hash_fn current_hash (a ++ b) =
  let* x := fold_proof hash_fn current_hash a in fold_proof hash_fn x b.
Proof.
  revert current_hash. induction a as [|s a IH]; intros c; simpl; trivial.
  destruct (bytes_xor c s); simpl; trivial.
Qed.

Lemma prove_step (n : Node) (location : list Z) (index : nat) (proof : list bytes) :
  get_proof_node n location index proof =
  match nth_error location index with
  | None => Some proof
  | Some bit =>
      match right n, Z.eqb bit 0 with
      | Some r, true =>
          _get_proof_rec (left n) location (S index) (proof ++ [value r])
      | _, _ =>
          match left n, Z.eqb bit 1 with
          | Some l, true =>
              _get_proof_rec (right n) location (S index) (proof ++ [value l])
          | _, _ => None
          end
      end
  end.
Proof. destruct n. reflexivity. Qed.

Lemma nth_error_middle (pre q : list Z) (bit : Z) :
  nth_error (pre ++ bit :: q) (length pre) = Some bit.
Proof. rewrite nth_error_app2, Nat.sub_diag by lia. reflexivity. Qed.

Section Walk.
Variable Q : Node -> Prop.
Hypothesis Q_leaf : forall x, Q x -> left x = None /\ right x = None.

(** Walking the path of a node of a built tree records one sibling per
    direction bit, and folding these siblings from the last to the first,
    starting at the node's value, rebuilds the value of the root. *)
Lemma walk_fold (q : list Z) :
  forall t m pre proof,
    shape hash_fn Q t -> node_at t q = Some m ->
    exists siblings,
      get_proof_node t (pre ++ q) (length pre) proof = Some (proof ++ siblings)
      /\ fold_proof hash_fn (value m) (rev siblings) = Ok (value t)
      /\ length siblings = length q
      /\ Forall (fun s => exists n, In n (descendants t) /\ s = value n) siblings.
Proof.
  induction q as [|bit q IH]; intros t m pre proof S A.
  - injection A as <-. exists []. rewrite !app_nil_r, prove_step.
    replace (nth_error pre (length pre)) with (@None Z)
      by (symmetry; now apply nth_error_None).
    simpl. auto.
  - simpl in A. destruct (child t bit) as [c|] eqn:C; [|discriminate].
    apply shape_inv in S as [Qt|(l & r & Lt & Rt & Sl & Sr & El & Vt & _)].
    { apply Q_leaf in Qt as [Ln Rn].
      apply child_cases in C as [[_ C]|[_ C]]; congruence. }
    rewrite prove_step, nth_error_middle, Lt, Rt.
    replace (pre ++ bit :: q) with ((pre ++ [bit]) ++ q)
      by (now rewrite <- app_assoc).
    replace (S (length pre)) with (length (pre ++ [bit]))
      by (rewrite length_app; simpl; lia).
    apply child_cases in C as [[-> C]|[-> C]]; cbn [Z.eqb _get_proof_rec on_node].
    + assert (c = l) as -> by congruence.
      destruct (IH l m (pre ++ [0%Z]) (proof ++ [value r]) Sl A)
        as (sib & G & F & Len & V).
      exists (value r :: sib). rewrite G, <- app_assoc.
      cbn [rev length app]. rewrite fold_proof_app, F. cbn [bind fold_proof].
      rewrite bytes_xor_same_length by trivial. cbn [bind].
      repeat split; try congruence.
      constructor.
      * exists r. split; trivial.
        eapply descendants_right; [eassumption|apply descendants_self].
      * eapply Forall_impl; [|exact V]. intros s (n & I & ->).
        exists n. split; trivial. eapply descendants_left; eassumption.
    + assert (c = r) as -> by congruence.
      destruct (IH r m (pre ++ [1%Z]) (proof ++ [value l]) Sr A)
        as (sib & G & F & Len & V).
      exists (value l :: sib). rewrite G, <- app_assoc.
      cbn [rev length app]. rewrite fold_proof_app, F. cbn [bind fold_proof].
      rewrite bytes_xor_comm, bytes_xor_same_length by trivial. cbn [bind].
      repeat split; try congruence.
      constructor.
      * exists l. split; trivial.
        eapply descendants_left; [eassumption|apply descendants_self].
      * eapply Forall_impl; [|exact V]. intros s (n & I & ->).
        exists n. split; trivial. eapply descendants_right; eassumption.
Qed.
End Walk.
End Shape.

(** ** Trees built from blocks *)

Section BuiltTrees.
Variable hash_fn : HashFn.

Lemma block_leaf_copy (values : list bytes) (x : Node) :
  block_leaf hash_fn values x -> block_leaf hash_fn values (copy x).
Proof. unfold block_leaf. destruct x. simpl. trivial. Qed.

Lemma block_leaf_is_leaf (values : list bytes) (x : Node) :
  block_leaf hash_fn values x -> left x = None /\ right x = None.
Proof. unfold block_leaf. tauto. Qed.

Lemma leaves_block_leaf (values : list bytes) :
  Forall (block_leaf hash_fn values) (map (leaf hash_fn) values).
Proof.
  apply Forall_forall. intros n I. apply in_map_iff in I as (e & <- & I).
  unfold block_leaf. simpl. auto.
Qed.

Lemma buildTree_shape (fuel : nat) (values : list bytes) (t : Node) :
  _buildTree hash_fn fuel values = Ok t ->
  shape hash_fn (block_leaf hash_fn values) t.
Proof.
  intros E. eapply build_shape; [|exact E|apply leaves_block_leaf].
  apply block_leaf_copy.
Qed.

(** Every node of a built tree is itself a built tree. *)
Lemma shape_descendants (Q : Node -> Prop) (t : Node) :
  (forall x, Q x -> left x = None /\ right x = None) ->
  shape hash_fn Q t ->
  forall n, In n (descendants t) -> shape hash_fn Q n.
Proof.
  intros Q_leaf S. induction S as [x Qx|l r Sl IHl Sr IHr E]; intros n I.
  - destruct (Q_leaf _ Qx) as [Lx Rx]. destruct x as [xl xr v c d].
    simpl in *. subst. simpl in I. destruct I as [<-|[]].
    now apply shape_given.
  - simpl in I. destruct I as [<-|I]; [now apply shape_join|].
    apply in_app_or in I as [I|I]; auto.
Qed.

(** A path found by the Locator in a built tree always yields a proof, with
    one sibling per direction bit, and the proof verifies against the
    value of the root. *)
Lemma located_proof_verifies (Q : Node -> Prop) (t : Node) (h : bytes)
      (p : list Z) :
  (forall x, Q x -> left x = None /\ right x = None) ->
  shape hash_fn Q t ->
  get_location t h = Some p ->
  exists proof,
    _get_proof_rec (Some t) p 0 [] = Some proof
    /\ get_proof t h = Some proof
    /\ verify_proof (value t) h proof hash_fn = Ok true
    /\ length proof = length p
    /\ Forall (fun s => exists n, In n (descendants t) /\ s = value n) proof.
Proof.
  intros Q_leaf S E. unfold get_proof. rewrite E.
  unfold get_location, _get_location_rec in E. simpl in E.
  apply locate_sound in E as (q & m & -> & A & M & _). simpl.
  destruct (walk_fold hash_fn Q Q_leaf q t m [] [] S A) as (sib & G & F & Len & V).
  simpl in G. exists sib. rewrite G. repeat split; trivial.
  unfold verify_proof. unfold matches in M.
  apply andb_prop in M as [M _]. apply bytes_eqb_eq in M. subst h.
  rewrite F. simpl. now rewrite bytes_eqb_refl.
Qed.
End BuiltTrees.

(** ** Round trip and negative membership *)

(** C1. Round-trip membership: with a hash function of fixed output length,
    the builder returns a tree on every non-empty block list, and for every
    block [b] of the list [get_proof] on [hash_fn b] returns a proof that
    [verify_proof] accepts against the tree's root hash. The absence of
    collisions is not needed. *)
Theorem roundtrip_membership (hash_fn : HashFn) (L fuel : nat)
        (values : list bytes) :
  (forall x, length (hash_fn x) = L) ->
  values <> [] -> length values <= fuel ->
  exists _root,
    _buildTree hash_fn fuel values = Ok _root
    /\ forall b, In b values ->
         exists proof,
           get_proof _root (hash_fn b) = Some proof
           /\ verify_proof (value _root) (hash_fn b) proof hash_fn = Ok true.
Proof.
  intros HL NE Le.
  destruct (buildTree_total hash_fn L HL fuel values NE Le) as [t E].
  exists t. split; trivial. intros b I.
  pose proof (buildTree_shape _ _ _ _ E) as S.
  assert (In (leaf hash_fn b) (descendants t)) as D.
  { eapply build_contains; [exact E|]. now apply in_map. }
  destruct (locate_complete (hash_fn b) t (leaf hash_fn b) [] D) as [p P].
  { unfold matches. simpl. now rewrite bytes_eqb_refl. }
  destruct (located_proof_verifies hash_fn (block_leaf hash_fn values) t
              (hash_fn b) p (block_leaf_is_leaf hash_fn values) S P)
    as (proof & _ & G & V & _).
  now exists proof.
Qed.

(** C3. Negative membership: for every tree and every hash that is the
    value of none of its nodes, [get_proof] returns [None] and
    [verify_proof] with the empty proof returns [False]. *)
Theorem negative_membership (hash_fn : HashFn) (_root : Node) (h : bytes) :
  ~ In h (map value (descendants _root)) ->
  get_proof _root h = None
  /\ verify_proof (value _root) h [] hash_fn = Ok false.
Proof.
  intros NI. split.
  - unfold get_proof. destruct (get_location _root h) as [p|] eqn:E; trivial.
    unfold get_location, _get_location_rec in E. simpl in E.
    apply locate_sound in E as (q & m & _ & A & M & _).
    contradiction NI. apply in_map_iff. exists m. split.
    + unfold matches in M. apply andb_prop in M as [M _].
      now apply bytes_eqb_eq.
    + apply descendants_node_at. now exists q.
  - unfold verify_proof. simpl.
    destruct (bytes_eqb h (value _root)) eqn:B; trivial.
    apply bytes_eqb_eq in B. contradiction NI. subst h.
    apply in_map, descendants_self.
Qed.

(** C5. Internal-node invariant: in a tree returned by the builder every
    node is a leaf whose value is the hash of its content, a block of the
    input, or an internal node with two children whose value is the hash of
    the byte-wise exclusive-or of the children's values, of equal length,
    and whose content is the left content followed by the right one. *)
Theorem internal_node_invariant (hash_fn : HashFn) (fuel : nat)
        (values : list bytes) (_root : Node) :
  _buildTree hash_fn fuel values = Ok _root ->
  forall n, In n (descendants _root) ->
    (left n = None /\ right n = None
     /\ value n = hash_fn (content n) /\ In (content n) values)
    \/ (exists l r,
           left n = Some l /\ right n = Some r
           /\ length (value l) = length (value r)
           /\ bytes_xor (value l) (value r) = Ok (zip_xor (value l) (value r))
           /\ value n = hash_fn (zip_xor (value l) (value r))
           /\ content n = content l ++ content r).
Proof.
  intros E n I.
  pose proof (buildTree_shape _ _ _ _ E) as S.
  apply (shape_descendants hash_fn _ _ (block_leaf_is_leaf hash_fn values) S) in I.
  apply shape_inv in I as [Qn|(l & r & Ln & Rn & _ & _ & El & Vn & Cn & _)].
  - left. exact Qn.
  - right. exists l, r. rewrite bytes_xor_same_length by trivial.
    repeat split; trivial.
Qed.

(** ** Verification and malformed proofs *)

Lemma fold_proof_fixed_length (hash_fn : HashFn) (L : nat) :
  (forall x, length (hash_fn x) = L) ->
  forall rest current_hash,
    length current_hash = L ->
    (Forall (fun x => length x = L) rest ->
     exists c, fold_proof hash_fn current_hash rest = Ok c)
    /\ (~ Forall (fun x => length x = L) rest ->
        fold_proof hash_fn current_hash rest = AssertionError).
Proof.
  intros HL. induction rest as [|s rest IH]; intros c Lc.
  - split; [now exists c|]. intros NF. contradiction NF. constructor.
  - simpl. destruct (Nat.eq_dec (length s) L) as [Ls|Ls].
    + rewrite bytes_xor_same_length by congruence. simpl.
      destruct (IH (hash_fn (zip_xor c s)) (HL _)) as [Yes No]. split.
      * intros F. inversion F. auto.
      * intros NF. apply No. intros F. apply NF. now constructor.
    + rewrite bytes_xor_mismatch by congruence. split; trivial.
      intros F. inversion F. contradiction.
Qed.

Lemma fold_proof_value (hash_fn : HashFn) (L : nat) :
  (forall x, length (hash_fn x) = L) ->
  forall rest current_hash,
    length current_hash = L ->
    Forall (fun x => length x = L) rest ->
    fold_proof hash_fn current_hash rest
    = Ok (fold_left (fun c s => hash_fn (zip_xor c s)) rest current_hash).
Proof.
  intros HL. induction rest as [|s rest IH]; intros c Lc F; trivial.
  inversion F as [|? ? Ls F']. subst. simpl.
  rewrite bytes_xor_same_length by congruence. simpl.
  apply IH; trivial.
Qed.

(** C2, amended. With a hash of fixed output length [verify_proof] returns
    a boolean exactly when the lengths of the proof entries agree with the
    running hash, and the boolean tells whether the hash folded from the
    block hash and the proof is the root hash: [False] for a well-sized
    proof that folds to another hash, [True] otherwise. When a length does
    not agree, the assertion of [bytes_xor] fails and the call raises
    [AssertionError]. The empty proof always gives a boolean. *)
Theorem verify_proof_outcome (hash_fn : HashFn) (L : nat)
        (root_hash block_hash : bytes) (proof : list bytes) :
  (forall x, length (hash_fn x) = L) ->
  (lengths_agree L block_hash proof ->
   verify_proof root_hash block_hash proof hash_fn
   = Ok (bytes_eqb (folded_hash hash_fn block_hash proof) root_hash))
  /\ (lengths_agree L block_hash proof ->
      folded_hash hash_fn block_hash proof <> root_hash ->
      verify_proof root_hash block_hash proof hash_fn = Ok false)
  /\ (lengths_agree L block_hash proof ->
      folded_hash hash_fn block_hash proof = root_hash ->
      verify_proof root_hash block_hash proof hash_fn = Ok true)
  /\ (~ lengths_agree L block_hash proof ->
      verify_proof root_hash block_hash proof hash_fn = AssertionError)
  /\ verify_proof root_hash block_hash [] hash_fn
     = Ok (bytes_eqb block_hash root_hash).
Proof.
  intros HL.
  assert (lengths_agree L block_hash proof ->
          verify_proof root_hash block_hash proof hash_fn
          = Ok (bytes_eqb (folded_hash hash_fn block_hash proof) root_hash))
    as Agree.
  { unfold lengths_agree, verify_proof, folded_hash.
    destruct (rev proof) as [|s rest]; intros A; [reflexivity|].
    destruct A as [Ls F]. simpl.
    rewrite bytes_xor_same_length by congruence. simpl.
    now rewrite (fold_proof_value hash_fn L HL rest _ (HL _) F). }
  split; [exact Agree|]. split; [|split; [|split; [|reflexivity]]].
  - intros A NE. rewrite (Agree A). f_equal. now apply bytes_eqb_neq.
  - intros A E. rewrite (Agree A). f_equal. now apply bytes_eqb_eq.
  - unfold lengths_agree, verify_proof.
    destruct (rev proof) as [|s rest]; intros A; [now contradiction A|].
    simpl. destruct (Nat.eq_dec (length s) (length block_hash)) as [Ls|Ls].
    + rewrite bytes_xor_same_length by congruence. simpl.
      destruct (fold_proof_fixed_length hash_fn L HL rest
                  (hash_fn (zip_xor block_hash s)) (HL _)) as [_ No].
      rewrite No; trivial. intros F. apply A. now split.
    + rewrite bytes_xor_mismatch by congruence. reflexivity.
Qed.

(** ** Reordering the blocks *)

Lemma build_swap_halves (hash_fn : HashFn) (a b : list Node) :
  length a = length b ->
  forall fuel fuel' t t',
    _buildTreeRec hash_fn fuel (a ++ b) = Ok t ->
    _buildTreeRec hash_fn fuel' (b ++ a) = Ok t' ->
    value t = value t'.
Proof.
  intros Lab fuel fuel' t t' E E'.
  destruct fuel as [|fuel]; [discriminate|].
  destruct fuel' as [|fuel']; [discriminate|].
  assert (length (a ++ b) mod 2 = 0) as Ev.
  { rewrite length_app, Lab.
    replace (length b + length b) with (0 + length b * 2) by lia.
    apply Nat.Div0.mod_add. }
  assert (length (b ++ a) mod 2 = 0) as Ev'
      by (rewrite length_app, Nat.add_comm, <- length_app; exact Ev).
  assert (length (a ++ b) / 2 = length a) as Ha.
  { rewrite length_app, <- Lab.
    replace (length a + length a) with (length a * 2) by lia.
    now apply Nat.div_mul. }
  assert (length (b ++ a) / 2 = length b) as Hb
      by (rewrite length_app, Nat.add_comm, <- length_app; congruence).
  destruct a as [|a0 [|a1 a]]; destruct b as [|b0 [|b1 b]];
    try discriminate Lab.
  - now rewrite build_nil in E.
  - rewrite (build_two hash_fn fuel ([a0] ++ [b0]) _ _ (pad_even _ Ev)) in E.
    rewrite (build_two hash_fn fuel' ([b0] ++ [a0]) _ _ (pad_even _ Ev')) in E'.
    apply join_Ok in E as [_ ->]. apply join_Ok in E' as [_ ->]. simpl.
    now rewrite zip_xor_comm.
  - set (A := a0 :: a1 :: a) in *. set (B := b0 :: b1 :: b) in *.
    rewrite build_split in E, E'
      by (rewrite pad_even by trivial; rewrite length_app; unfold A, B;
          simpl; lia).
    cbv zeta in E, E'. rewrite pad_even in E, E' by trivial.
    rewrite Ha in E. rewrite Hb in E'.
    rewrite firstn_app, skipn_app, firstn_all, skipn_all, Nat.sub_diag in E, E'.
    simpl firstn in *. simpl skipn in *. rewrite app_nil_r in E, E'.
    simpl app in E, E'.
    change ([] ++ B) with B in E. change ([] ++ A) with A in E'.
    apply bind_Ok in E as (l & El & E). apply bind_Ok in E as (r & Er & E).
    apply bind_Ok in E' as (l' & El' & E').
    apply bind_Ok in E' as (r' & Er' & E').
    rewrite (build_deterministic _ _ _ _ _ _ El Er') in *.
    rewrite (build_deterministic _ _ _ _ _ _ Er El') in *.
    apply join_Ok in E as [_ ->]. apply join_Ok in E' as [_ ->]. simpl.
    now rewrite zip_xor_comm.
Qed.

(** C4, amended. A reordering of the block list need not change the root
    hash: the combine operation is commutative, so exchanging the two
    halves of a list of even length (for a list of two blocks, exchanging
    the two blocks) gives the same root hash. *)
Theorem reordering_halves_same_root (hash_fn : HashFn) (xs ys : list bytes)
        (fuel fuel' : nat) (t t' : Node) :
  length xs = length ys ->
  _buildTree hash_fn fuel (xs ++ ys) = Ok t ->
  _buildTree hash_fn fuel' (ys ++ xs) = Ok t' ->
  value t = value t'.
Proof.
  intros Lxy E E'. unfold _buildTree in *. rewrite map_app in E, E'.
  eapply build_swap_halves; [|exact E|exact E'].
  now rewrite !length_map.
Qed.

(** ** Padding at every call of the builder *)

Lemma last_node_split (nodes : list Node) (x : Node) :
  last_node nodes = Some x -> exists front, nodes = front ++ [x].
Proof.
  induction nodes as [|a [|b rest] IH]; intros E.
  - discriminate.
  - injection E as ->. now exists [].
  - destruct (IH E) as [front ->]. now exists (a :: front).
Qed.

(** C6. Re-entrant padding: every call of [_buildTreeRec] that is allowed
    to proceed, on whatever non-empty group, first extends a group of odd
    size by a copy of its last element, equal to it field by field except
    for the flag, which is true; the padded group has two equal halves
    around its midpoint, which are the two nodes combined when the group
    has two elements and the groups of the two recursive calls otherwise. *)
Theorem reentrant_padding (hash_fn : HashFn) (fuel : nat) (nodes : list Node) :
  nodes <> [] ->
  let g := pad nodes in
  let half := length g / 2 in
  (length nodes mod 2 = 1 ->
   exists front x,
     nodes = front ++ [x] /\ g = nodes ++ [copy x]
     /\ copy x = mkNode (left x) (right x) (value x) (content x) true)
  /\ (length nodes mod 2 = 0 -> g = nodes)
  /\ length (firstn half g) = half /\ length (skipn half g) = half
  /\ firstn half g ++ skipn half g = g
  /\ ((exists n0 n1,
          firstn half g = [n0] /\ skipn half g = [n1]
          /\ _buildTreeRec hash_fn (S fuel) nodes = join hash_fn n0 n1)
      \/ (2 <= half
          /\ _buildTreeRec hash_fn (S fuel) nodes =
             let* l := _buildTreeRec hash_fn fuel (firstn half g) in
             let* r := _buildTreeRec hash_fn fuel (skipn half g) in
             join hash_fn l r)).
Proof.
  intros NE g half. split; [|split].
  - intros Odd. destruct (pad_odd _ Odd) as (x & Lx & Eg).
    destruct (last_node_split _ _ Lx) as [front ->].
    now exists front, x.
  - apply pad_even.
  - destruct (halves g) as [(n0 & n1 & Eg)|(H2 & Hl & Hf & Hs & Ha)].
    + apply pad_length_even.
    + intros Eg. now apply pad_nil_inv in Eg.
    + unfold half. rewrite Eg. simpl. repeat split.
      left. exists n0, n1. repeat split. now apply build_two.
    + fold half in H2, Hl, Hf, Hs, Ha. repeat split; trivial.
      right. split; trivial. rewrite build_split; [reflexivity|].
      fold g. lia.
Qed.

(** The frontier of a tree of five blocks has eight leaves: the group of
    six made of the five leaves and a copy splits into two groups of three,
    each padded again. *)
Example padding_of_five_blocks (hash_fn : HashFn) (b0 b1 b2 b3 b4 : bytes) :
  (forall x, length (hash_fn x) = 2) ->
  exists t,
    _buildTree hash_fn 3 [b0; b1; b2; b3; b4] = Ok t
    /\ map content (frontier t) = [b0; b1; b2; b2; b3; b4; b4; b4]
    /\ map is_copied (frontier t)
       = [false; false; false; true; false; false; true; true].
Proof.
  intros HL. unfold _buildTree. simpl.
  unfold join. simpl.
  rewrite !bytes_xor_same_length by (now rewrite !HL). simpl.
  rewrite !bytes_xor_same_length by (now rewrite !HL). simpl.
  rewrite !bytes_xor_same_length by (now rewrite !HL). simpl.
  eexists. split; [reflexivity|]. split; reflexivity.
Qed.

(** ** The root accessor *)

(** C10. The [root] accessor returns a node with the children, value and
    content of the tree's root and with the flag set, although the root the
    builder made has the flag unset. *)
Theorem root_accessor_flag (hash_fn : HashFn) (fuel : nat)
        (values : list bytes) (_root : Node) :
  _buildTree hash_fn fuel values = Ok _root ->
  left (root _root) = left _root
  /\ right (root _root) = right _root
  /\ value (root _root) = value _root
  /\ content (root _root) = content _root
  /\ is_copied (root _root) = true
  /\ is_copied _root = false.
Proof.
  intros E. apply build_root in E as (l & r & _ & ->). now repeat split.
Qed.

(** ** Walks along arbitrary paths *)

(** In a built tree the walk of the Proof Generator follows any path that
    leads to a node down to that node. *)
Lemma walk_reach (hash_fn : HashFn) (Q : Node -> Prop) :
  (forall x, Q x -> left x = None /\ right x = None) ->
  forall q t m pre rest proof,
    shape hash_fn Q t -> node_at t q = Some m ->
    exists siblings,
      get_proof_node t (pre ++ q ++ rest) (length pre) proof
      = get_proof_node m (pre ++ q ++ rest) (length pre + length q)
                       (proof ++ siblings).
Proof.
  intros Q_leaf. induction q as [|bit q IH]; intros t m pre rest proof S A.
  - injection A as <-. exists []. now rewrite app_nil_r, Nat.add_0_r.
  - simpl in A. destruct (child t bit) as [c|] eqn:C; [|discriminate].
    apply shape_inv in S as [Qt|(l & r & Lt & Rt & Sl & Sr & _)].
    { apply Q_leaf in Qt as [Ln Rn].
      apply child_cases in C as [[_ C]|[_ C]]; congruence. }
    rewrite prove_step. cbn [app]. rewrite nth_error_middle, Lt, Rt.
    replace (pre ++ bit :: q ++ rest) with ((pre ++ [bit]) ++ q ++ rest)
      by (now rewrite <- app_assoc).
    replace (S (length pre)) with (length (pre ++ [bit]))
      by (rewrite length_app; simpl; lia).
    replace (length pre + length (bit :: q))
      with (length (pre ++ [bit]) + length q)
      by (rewrite length_app; simpl; lia).
    apply child_cases in C as [[-> C]|[-> C]]; cbn [Z.eqb _get_proof_rec on_node].
    + assert (c = l) as -> by congruence.
      destruct (IH l m (pre ++ [0%Z]) rest (proof ++ [value r]) Sl A) as [sib G].
      exists (value r :: sib). rewrite G.
      replace ((proof ++ [value r]) ++ sib) with (proof ++ value r :: sib)
        by (rewrite <- app_assoc; reflexivity).
      reflexivity.
    + assert (c = r) as -> by congruence.
      destruct (IH r m (pre ++ [1%Z]) rest (proof ++ [value l]) Sr A) as [sib G].
      exists (value l :: sib). rewrite G.
      replace ((proof ++ [value l]) ++ sib) with (proof ++ value l :: sib)
        by (rewrite <- app_assoc; reflexivity).
      reflexivity.
Qed.

(** C9, amended. On a tree returned by the builder the walk of the Proof
    Generator returns [None] whenever the child selected by the next
    direction bit is absent at the node reached so far; this is the value
    [get_proof] returns for a hash that is not found; and the walk never
    returns it on a path returned by the Locator for the same tree. *)
Theorem malformed_path_fails (hash_fn : HashFn) (fuel : nat)
        (values : list bytes) (_root : Node) :
  _buildTree hash_fn fuel values = Ok _root ->
  (forall p bit rest n,
      node_at _root p = Some n -> child n bit = None ->
      _get_proof_rec (Some _root) (p ++ bit :: rest) 0 [] = None)
  /\ (forall h, get_location _root h = None -> get_proof _root h = None)
  /\ (forall h p,
         get_location _root h = Some p ->
         exists proof, _get_proof_rec (Some _root) p 0 [] = Some proof).
Proof.
  intros E. pose proof (buildTree_shape _ _ _ _ E) as S.
  split; [|split; [intros h N; unfold get_proof; now rewrite N|]].
  - intros p bit rest n A C. simpl.
    destruct (walk_reach hash_fn _ (block_leaf_is_leaf hash_fn values)
                p _root n [] (bit :: rest) [] S A) as [sib G].
    simpl in G. rewrite G, prove_step.
    rewrite (nth_error_middle p rest bit).
    assert (shape hash_fn (block_leaf hash_fn values) n) as Sn.
    { eapply shape_descendants; [apply block_leaf_is_leaf|exact S|].
      apply descendants_node_at. now exists p. }
    apply shape_inv in Sn as [Qn|(l & r & Ln & Rn & _)].
    + apply block_leaf_is_leaf in Qn as [-> ->]. reflexivity.
    + rewrite Ln, Rn. unfold child in C. rewrite Ln, Rn in C.
      destruct (Z.eqb bit 0); [discriminate|].
      destruct (Z.eqb bit 1); [discriminate|]. reflexivity.
  - intros h p P.
    destruct (located_proof_verifies hash_fn _ _ _ _
                (block_leaf_is_leaf hash_fn values) S P) as (proof & G & _).
    now exists proof.
Qed.

(** ** Duplicates *)

Lemma pad_idempotent (nodes : list Node) : pad (pad nodes) = pad nodes.
Proof. apply pad_even, pad_length_even. Qed.

Lemma build_of_padded (hash_fn : HashFn) (fuel : nat) (nodes : list Node) :
  _buildTreeRec hash_fn fuel (pad nodes) = _buildTreeRec hash_fn fuel nodes.
Proof.
  destruct fuel as [|fuel]; trivial. simpl. now rewrite pad_idempotent.
Qed.

Lemma shape_value_length (hash_fn : HashFn) (L : nat) (values : list bytes)
      (t : Node) :
  (forall x, length (hash_fn x) = L) ->
  shape hash_fn (block_leaf hash_fn values) t -> length (value t) = L.
Proof.
  intros HL S. apply shape_inv in S as [(_ & _ & -> & _)|(l & r & S)].
  - apply HL.
  - destruct S as (_ & _ & _ & _ & _ & -> & _). apply HL.
Qed.

(** C7. Duplicate exclusion. On every tree [get_location] returns only the
    path of a node whose value is the target and whose flag is unset, the
    first such node in depth-first left-to-right order, and it returns
    [None] exactly when every node with the target value is flagged. In
    the tree built from a non-empty block list, where an odd number of
    blocks puts a flagged copy of the last leaf in the tree, [get_proof]
    returns for every block a proof made of hashes, one per direction bit,
    that [verify_proof] accepts, for a location that is never a copy. *)
Theorem duplicate_exclusion :
  (forall (t : Node) (h : bytes),
      (forall p,
          get_location t h = Some p ->
          exists m,
            node_at t p = Some m /\ value m = h /\ is_copied m = false
            /\ forall p' m',
                node_at t p' = Some m' ->
                value m' = h -> is_copied m' = false -> dfs_le p p')
      /\ (get_location t h = None
          <-> forall p m,
              node_at t p = Some m -> value m = h -> is_copied m = true))
  /\ (forall (hash_fn : HashFn) (L fuel : nat) (values : list bytes),
         (forall x, length (hash_fn x) = L) ->
         values <> [] -> length values <= fuel ->
         exists _root,
           _buildTree hash_fn fuel values = Ok _root
           /\ (length values mod 2 = 1 ->
               exists front b p,
                 values = front ++ [b]
                 /\ node_at _root p = Some (copy (leaf hash_fn b))
                 /\ get_location _root (hash_fn b) <> Some p)
           /\ (forall b, In b values ->
                  exists p m proof,
                    get_location _root (hash_fn b) = Some p
                    /\ node_at _root p = Some m /\ is_copied m = false
                    /\ get_proof _root (hash_fn b) = Some proof
                    /\ length proof = length p
                    /\ Forall (fun s => length s = L) proof
                    /\ verify_proof (value _root) (hash_fn b) proof hash_fn
                       = Ok true)).
Proof.
  assert (forall (t : Node) (h : bytes) p,
             get_location t h = Some p ->
             exists m,
               node_at t p = Some m /\ value m = h /\ is_copied m = false
               /\ forall p' m',
                   node_at t p' = Some m' ->
                   value m' = h -> is_copied m' = false -> dfs_le p p')
    as Loc.
  { intros t h p P. unfold get_location, _get_location_rec in P. simpl in P.
    apply locate_sound in P as (q & m & -> & A & M & First).
    unfold matches in M. apply andb_prop in M as [Mv Mc].
    apply bytes_eqb_eq in Mv. apply negb_true_iff in Mc.
    exists m. simpl. repeat split; trivial.
    intros p' m' A' V' C'. apply (First p' m' A').
    unfold matches. rewrite V', C', bytes_eqb_refl. reflexivity. }
  split.
  - intros t h. split; [apply Loc|]. split.
    + intros N p m A V.
      unfold get_location, _get_location_rec in N. cbn [on_node] in N.
      pose proof (locate_none h t [] N p m A) as M.
      unfold matches in M. rewrite V, bytes_eqb_refl in M. simpl in M.
      now apply negb_false_iff in M.
    + intros Flagged. destruct (get_location t h) as [p|] eqn:P; trivial.
      destruct (Loc t h p P) as (m & A & V & C & _).
      rewrite (Flagged p m A V) in C. discriminate C.
  - intros hash_fn L fuel values HL NE Le.
    destruct (buildTree_total hash_fn L HL fuel values NE Le) as [t E].
    pose proof (buildTree_shape _ _ _ _ E) as S.
    exists t. split; [exact E|]. split.
    + intros Odd.
      destruct (pad_odd (map (leaf hash_fn) values)) as (x & Lx & Ep);
        [now rewrite length_map|].
      apply last_node_split in Lx as [nodes_front Ex].
      assert (exists front b, values = front ++ [b]) as (front & b & Ev).
      { destruct (exists_last NE) as (front & b & Ev). now exists front, b. }
      rewrite Ev, map_app in Ex. simpl in Ex.
      apply app_inj_tail in Ex as [_ Ex]. subst x.
      assert (In (copy (leaf hash_fn b)) (descendants t)) as D.
      { unfold _buildTree in E. rewrite <- build_of_padded in E.
        eapply build_contains; [exact E|].
        rewrite Ep. apply in_or_app. right. now left. }
      apply descendants_node_at in D as [p A].
      exists front, b, p. repeat split; trivial.
      intros P. destruct (Loc t _ p P) as (m & A' & _ & C & _).
      rewrite A in A'. injection A' as <-. discriminate C.
    + intros b I.
      assert (In (leaf hash_fn b) (descendants t)) as D.
      { eapply build_contains; [exact E|]. now apply in_map. }
      destruct (locate_complete (hash_fn b) t (leaf hash_fn b) [] D) as [p P].
      { unfold matches. simpl. now rewrite bytes_eqb_refl. }
      destruct (Loc t _ p P) as (m & A & _ & C & _).
      destruct (located_proof_verifies hash_fn _ _ _ _
                  (block_leaf_is_leaf hash_fn values) S P)
        as (proof & _ & G & V & Len & F).
      exists p, m, proof. repeat split; trivial.
      eapply Forall_impl; [|exact F]. intros s (n & In_n & ->).
      apply (shape_value_length hash_fn L values); trivial.
      eapply shape_descendants; [apply block_leaf_is_leaf|exact S|exact In_n].
Qed.

(** ** Locations in a tree of [2 ^ k] blocks *)




Section PowerOfTwo.
Variable hash_fn : HashFn.
Variable h : bytes.



End PowerOfTwo.


Lemma no_internal_collision_spec (hash_fn : HashFn) (t : Node)
      (values : list bytes) :
  no_internal_collision hash_fn t values = true ->
  forall n b, In n (descendants t) -> is_internal n = true -> In b values ->
              value n <> hash_fn b.
Proof.
  unfold no_internal_collision. intros F n b In_n Int In_b.
  rewrite forallb_forall in F. specialize (F n In_n).
  rewrite Int in F. simpl in F. rewrite forallb_forall in F.
  specialize (F b In_b). apply negb_true_iff in F. now apply bytes_eqb_neq.
Qed.


(** * Concrete runs

    The statements above at the blocks of the test suite, with [toy_hash]
    in place of SHA-256. *)

Lemma roundtrip_membership_witness :
  (forall x, length (toy_hash x) = 2)
  /\ poets <> []
  /\ length poets <= 8
  /\ exists _root,
      _buildTree toy_hash 8 poets = Ok _root
      /\ forall b, In b poets ->
           exists proof,
             get_proof _root (toy_hash b) = Some proof
             /\ verify_proof (value _root) (toy_hash b) proof toy_hash = Ok true.
Proof.
  assert (forall x, length (toy_hash x) = 2) as H1 by (intros x; reflexivity).
  assert (poets <> []) as H2 by (vm_compute; discriminate).
  assert (length poets <= 8) as H3 by (vm_compute; lia).
  refine (conj H1 (conj H2 (conj H3 _))).
  exact (roundtrip_membership toy_hash 2 8 poets H1 H2 H3).
Defined.

Lemma negative_membership_witness :
  ~ In (toy_hash invalid) (map value (descendants poets_tree))
  /\ get_proof poets_tree (toy_hash invalid) = None
  /\ verify_proof (value poets_tree) (toy_hash invalid) [] toy_hash = Ok false.
Proof.
  assert (~ In (toy_hash invalid) (map value (descendants poets_tree))) as H1.
  { vm_compute. intuition discriminate. }
  refine (conj H1 _).
  exact (negative_membership toy_hash poets_tree (toy_hash invalid) H1).
Defined.

Lemma internal_node_invariant_witness :
  _buildTree toy_hash 8 poets = Ok poets_tree
  /\ forall n, In n (descendants poets_tree) ->
       (left n = None /\ right n = None
        /\ value n = toy_hash (content n) /\ In (content n) poets)
       \/ (exists l r,
              left n = Some l /\ right n = Some r
              /\ length (value l) = length (value r)
              /\ bytes_xor (value l) (value r) = Ok (zip_xor (value l) (value r))
              /\ value n = toy_hash (zip_xor (value l) (value r))
              /\ content n = content l ++ content r).
Proof.
  assert (_buildTree toy_hash 8 poets = Ok poets_tree) as H1 by reflexivity.
  refine (conj H1 _).
  exact (internal_node_invariant toy_hash 8 poets poets_tree H1).
Defined.

Lemma reentrant_padding_witness :
  map (leaf toy_hash) (firstn 3 poets) <> []
  /\ exists n0 n1 n2,
      map (leaf toy_hash) (firstn 3 poets) = [n0; n1; n2]
      /\ pad [n0; n1; n2] = [n0; n1; n2; copy n2]
      /\ _buildTreeRec toy_hash 2 [n0; n1; n2] =
         let* l := _buildTreeRec toy_hash 1 [n0; n1] in
         let* r := _buildTreeRec toy_hash 1 [n2; copy n2] in
         join toy_hash l r.
Proof.
  assert (map (leaf toy_hash) (firstn 3 poets) <> []) as H1
      by (vm_compute; discriminate).
  refine (conj H1 _).
  destruct (reentrant_padding toy_hash 1 (map (leaf toy_hash) (firstn 3 poets)) H1)
    as (_ & _ & _ & _ & _ & [(n0 & n1 & F & _)|(_ & E)]).
  - vm_compute in F. discriminate F.
  - do 3 eexists. split; [reflexivity|]. split; [reflexivity|]. exact E.
Defined.

Lemma duplicate_exclusion_witness :
  (forall x, length (toy_hash x) = 2)
  /\ firstn 3 poets <> []
  /\ length (firstn 3 poets) <= 3
  /\ length (firstn 3 poets) mod 2 = 1
  /\ get_location (root pair_tree) (value pair_tree) = None
  /\ value (root pair_tree) = value pair_tree
  /\ (forall p m,
         node_at (root pair_tree) p = Some m ->
         value m = value pair_tree -> is_copied m = true)
  /\ exists _root,
      _buildTree toy_hash 3 (firstn 3 poets) = Ok _root
      /\ (exists front b p,
             firstn 3 poets = front ++ [b]
             /\ node_at _root p = Some (copy (leaf toy_hash b))
             /\ get_location _root (toy_hash b) <> Some p)
      /\ (forall b, In b (firstn 3 poets) ->
            exists p m proof,
              get_location _root (toy_hash b) = Some p
              /\ node_at _root p = Some m /\ is_copied m = false
              /\ get_proof _root (toy_hash b) = Some proof
              /\ length proof = length p
              /\ Forall (fun s => length s = 2) proof
              /\ verify_proof (value _root) (toy_hash b) proof toy_hash = Ok true).
Proof.
  assert (forall x, length (toy_hash x) = 2) as H1 by (intros x; reflexivity).
  assert (firstn 3 poets <> []) as H2 by (vm_compute; discriminate).
  assert (length (firstn 3 poets) <= 3) as H3 by (vm_compute; lia).
  assert (length (firstn 3 poets) mod 2 = 1) as H4 by reflexivity.
  assert (get_location (root pair_tree) (value pair_tree) = None) as H5
      by reflexivity.
  destruct duplicate_exclusion as [General Built].
  refine (conj H1 (conj H2 (conj H3 (conj H4 (conj H5 (conj eq_refl _)))))).
  split.
  - exact (proj1 (proj2 (General (root pair_tree) (value pair_tree))) H5).
  - destruct (Built toy_hash 2 3 (firstn 3 poets) H1 H2 H3)
      as (t & E & Dup & Blocks).
    exists t. split; [exact E|]. split; [exact (Dup H4)|exact Blocks].
Defined.

Lemma root_accessor_flag_witness :
  _buildTree toy_hash 8 poets = Ok poets_tree
  /\ left (root poets_tree) = left poets_tree
  /\ right (root poets_tree) = right poets_tree
  /\ value (root poets_tree) = value poets_tree
  /\ content (root poets_tree) = content poets_tree
  /\ is_copied (root poets_tree) = true
  /\ is_copied poets_tree = false.
Proof.
  assert (_buildTree toy_hash 8 poets = Ok poets_tree) as H1 by reflexivity.
  refine (conj H1 _).
  exact (root_accessor_flag toy_hash 8 poets poets_tree H1).
Defined.

(** A sibling of one byte against hashes of two: the assertion of
    [bytes_xor] fails and [verify_proof] raises instead of returning
    [False]. *)
Lemma verify_proof_raises :
  verify_proof (value pair_tree) (toy_hash invalid) [[x00]] toy_hash
  = AssertionError
  /\ forall b,
      verify_proof (value pair_tree) (toy_hash invalid) [[x00]] toy_hash
      <> Ok b.
Proof. split; [reflexivity|]. intros b. vm_compute. discriminate. Qed.

Lemma verify_proof_outcome_witness :
  (forall x, length (toy_hash x) = 2)
  /\ lengths_agree 2 (toy_hash invalid) [[x00; x01]; [x02; x03]]
  /\ folded_hash toy_hash (toy_hash invalid) [[x00; x01]; [x02; x03]]
     <> value pair_tree
  /\ verify_proof (value pair_tree) (toy_hash invalid)
                  [[x00; x01]; [x02; x03]] toy_hash = Ok false
  /\ ~ lengths_agree 2 (toy_hash invalid) [[x00]]
  /\ verify_proof (value pair_tree) (toy_hash invalid) [[x00]] toy_hash
     = AssertionError.
Proof.
  assert (forall x, length (toy_hash x) = 2) as H1 by (intros x; reflexivity).
  assert (lengths_agree 2 (toy_hash invalid) [[x00; x01]; [x02; x03]]) as H2.
  { unfold lengths_agree. simpl. split; [reflexivity|]. now repeat constructor. }
  assert (folded_hash toy_hash (toy_hash invalid) [[x00; x01]; [x02; x03]]
          <> value pair_tree) as H3 by (vm_compute; discriminate).
  assert (~ lengths_agree 2 (toy_hash invalid) [[x00]]) as H4.
  { unfold lengths_agree. simpl. intros [H _]. discriminate H. }
  refine (conj H1 (conj H2 (conj H3 (conj _ (conj H4 _))))).
  - exact (proj1 (proj2 (verify_proof_outcome toy_hash 2 (value pair_tree)
                           (toy_hash invalid) [[x00; x01]; [x02; x03]] H1))
                 H2 H3).
  - exact (proj1 (proj2 (proj2 (proj2
             (verify_proof_outcome toy_hash 2 (value pair_tree)
                (toy_hash invalid) [[x00]] H1)))) H4).
Defined.

(** Two different blocks in either order: the same root hash. *)
Lemma swapped_blocks_same_root :
  exists a b t t',
    [a; b] <> [b; a]
    /\ Permutation [a; b] [b; a]
    /\ _buildTree toy_hash 2 [a; b] = Ok t
    /\ _buildTree toy_hash 2 [b; a] = Ok t'
    /\ value t = value t'.
Proof.
  exists (nth 0 poets []), (nth 1 poets []).
  exists pair_tree, (tree_of (_buildTree toy_hash 2 (rev (firstn 2 poets)))).
  split; [vm_compute; discriminate|].
  split; [apply perm_swap|].
  repeat split.
Qed.

Lemma reordering_halves_same_root_witness :
  length (firstn 4 poets) = length (skipn 4 poets)
  /\ _buildTree toy_hash 8 (firstn 4 poets ++ skipn 4 poets) = Ok poets_tree
  /\ _buildTree toy_hash 8 (skipn 4 poets ++ firstn 4 poets)
     = Ok (tree_of (_buildTree toy_hash 8 (skipn 4 poets ++ firstn 4 poets)))
  /\ value poets_tree
     = value (tree_of (_buildTree toy_hash 8 (skipn 4 poets ++ firstn 4 poets))).
Proof.
  assert (length (firstn 4 poets) = length (skipn 4 poets)) as H1
      by reflexivity.
  assert (_buildTree toy_hash 8 (firstn 4 poets ++ skipn 4 poets)
          = Ok poets_tree) as H2 by reflexivity.
  assert (_buildTree toy_hash 8 (skipn 4 poets ++ firstn 4 poets)
          = Ok (tree_of (_buildTree toy_hash 8
                                    (skipn 4 poets ++ firstn 4 poets)))) as H3
      by reflexivity.
  refine (conj H1 (conj H2 (conj H3 _))).
  exact (reordering_halves_same_root toy_hash (firstn 4 poets) (skipn 4 poets)
           8 8 _ _ H1 H2 H3).
Defined.



(** A path that runs below a leaf and a hash that is not in the tree are
    answered alike. *)
Lemma malformed_path_same_signal :
  _buildTree toy_hash 2 (firstn 2 poets) = Ok pair_tree
  /\ node_at pair_tree [0%Z] = Some (leaf toy_hash (nth 0 poets []))
  /\ child (leaf toy_hash (nth 0 poets [])) 0 = None
  /\ get_location pair_tree (toy_hash invalid) = None
  /\ _get_proof_rec (Some pair_tree) [0%Z; 0%Z] 0 []
     = get_proof pair_tree (toy_hash invalid).
Proof. repeat split. Qed.

Lemma malformed_path_fails_witness :
  _buildTree toy_hash 2 (firstn 2 poets) = Ok pair_tree
  /\ _get_proof_rec (Some pair_tree) [0%Z; 0%Z] 0 [] = None
  /\ get_proof pair_tree (toy_hash invalid) = None
  /\ exists proof,
      _get_proof_rec (Some pair_tree) [1%Z] 0 [] = Some proof.
Proof.
  assert (_buildTree toy_hash 2 (firstn 2 poets) = Ok pair_tree) as H1
      by reflexivity.
  refine (conj H1 _).
  destruct (malformed_path_fails toy_hash 2 (firstn 2 poets) pair_tree H1)
    as (Fails & NotFound & Located).
  refine (conj _ (conj _ _)).
  - exact (Fails [0%Z] 0%Z [] (leaf toy_hash (nth 0 poets []))
                 eq_refl eq_refl).
  - exact (NotFound (toy_hash invalid) eq_refl).
  - exact (Located (toy_hash (nth 1 poets [])) [1%Z] eq_refl).
Defined.

(** * Further properties of the module *)

(** ** Membership by traversal: [verify_block] *)

Lemma verify_block_node_spec (block_hash : bytes) (n : Node) :
  verify_block_node n block_hash = true
  <-> exists m, In m (descendants n) /\ value m = block_hash.
Proof.
  induction n as [n IHl IHr] using Node_ind'.
  destruct n as [l r v c d]. simpl in *.
  rewrite !orb_true_iff, bytes_eqb_eq. split.
  - intros [[E|E]|E].
    + eexists. split; [left; reflexivity|exact E].
    + destruct l as [l0|]; [|discriminate]. simpl in E.
      apply (IHl l0 eq_refl) in E as (m & I & V).
      exists m. split; trivial. right. apply in_or_app. now left.
    + destruct r as [r0|]; [|discriminate]. simpl in E.
      apply (IHr r0 eq_refl) in E as (m & I & V).
      exists m. split; trivial. right. apply in_or_app. now right.
  - intros (m & [<-|I] & V); [now left; left|].
    apply in_app_or in I as [I|I].
    + left. right. destruct l as [l0|]; [|contradiction]. simpl.
      apply (IHl l0 eq_refl). eauto.
    + right. destruct r as [r0|]; [|contradiction]. simpl.
      apply (IHr r0 eq_refl). eauto.
Qed.

Lemma verify_block_true (t : Node) (root_hash block_hash : bytes) :
  verify_block t root_hash block_hash = true
  <-> value t = root_hash
      /\ exists m, In m (descendants t) /\ value m = block_hash.
Proof.
  unfold verify_block, _verify_block_rec. cbn [on_node].
  now rewrite andb_true_iff, bytes_eqb_eq, verify_block_node_spec.
Qed.

(** X1. [verify_block] answers [True] exactly when the given root hash is
    the value of the root and the block hash is the value of some node of
    the tree, whatever the node: leaf or internal, flagged or not. *)
Theorem verify_block_spec (_root : Node) (root_hash block_hash : bytes) :
  verify_block _root root_hash block_hash = true
  <-> value _root = root_hash
      /\ exists m, In m (descendants _root) /\ value m = block_hash.
Proof.
  unfold verify_block, _verify_block_rec. cbn [on_node].
  rewrite andb_true_iff, bytes_eqb_eq.
  now rewrite (verify_block_node_spec block_hash _root).
Qed.

(** In a tree built from blocks every value carried by a node is carried by
    a node that is not flagged: a copy always comes with its original. *)
Lemma built_value_unflagged (hash_fn : HashFn) (fuel : nat)
      (values : list bytes) (t n : Node) :
  _buildTree hash_fn fuel values = Ok t ->
  In n (descendants t) ->
  exists m, In m (descendants t) /\ value m = value n /\ is_copied m = false.
Proof.
  intros E I. pose proof (buildTree_shape _ _ _ _ E) as S.
  pose proof (shape_descendants hash_fn _ _
                (block_leaf_is_leaf hash_fn values) S n I) as Sn.
  apply shape_inv in Sn as [(_ & _ & V & C)|(l & r & _ & _ & _ & _ & _ & _ & _ & F)].
  - exists (leaf hash_fn (content n)). repeat split.
    + eapply build_contains; [exact E|]. now apply in_map.
    + now rewrite V.
  - now exists n.
Qed.

(** X2. On a built tree the membership test by traversal and the one by
    proof agree: [verify_block] accepts a hash against the tree's own root
    hash exactly when [get_proof] returns a proof for it, and that proof is
    then accepted by [verify_proof]. *)
Theorem verify_block_iff_proof (hash_fn : HashFn) (fuel : nat)
        (values : list bytes) (_root : Node) (h : bytes) :
  _buildTree hash_fn fuel values = Ok _root ->
  (verify_block _root (value _root) h = true
   <-> exists proof, get_proof _root h = Some proof)
  /\ (forall proof,
         get_proof _root h = Some proof ->
         verify_proof (value _root) h proof hash_fn = Ok true).
Proof.
  intros E. pose proof (buildTree_shape _ _ _ _ E) as S.
  assert (forall p, get_location _root h = Some p ->
                    exists proof,
                      get_proof _root h = Some proof
                      /\ verify_proof (value _root) h proof hash_fn = Ok true)
    as Located.
  { intros p P.
    destruct (located_proof_verifies hash_fn _ _ _ _
                (block_leaf_is_leaf hash_fn values) S P)
      as (proof & _ & G & V & _).
    now exists proof. }
  split; [split|].
  - intros B. apply verify_block_true in B as (_ & n & I & V).
    destruct (built_value_unflagged _ _ _ _ _ E I) as (m & Im & Vm & Cm).
    destruct (locate_complete h _root m [] Im) as [p P].
    { unfold matches. rewrite Vm, V, Cm, bytes_eqb_refl. reflexivity. }
    destruct (Located p P) as (proof & G & _). now exists proof.
  - intros [proof G]. apply verify_block_true. split; trivial.
    unfold get_proof in G.
    destruct (get_location _root h) as [p|] eqn:P; [|discriminate].
    unfold get_location, _get_location_rec in P. cbn [on_node] in P.
    apply locate_sound in P as (q & m & _ & A & M & _).
    exists m. split; [apply descendants_node_at; eauto|].
    unfold matches in M. apply andb_prop in M as [M _].
    now apply bytes_eqb_eq.
  - intros proof G. unfold get_proof in G.
    destruct (get_location _root h) as [p|] eqn:P; [|discriminate].
    destruct (Located p eq_refl) as (proof' & G' & V').
    unfold get_proof in G'. rewrite P in G'. congruence.
Qed.

(** X3. The root hash is itself located, at the empty path: [get_location]
    and [get_proof] on the root hash of a built tree return the empty path
    and the empty proof, which [verify_proof] accepts. *)
Theorem root_hash_is_located (hash_fn : HashFn) (fuel : nat)
        (values : list bytes) (_root : Node) :
  _buildTree hash_fn fuel values = Ok _root ->
  get_location _root (value _root) = Some []
  /\ get_proof _root (value _root) = Some []
  /\ verify_proof (value _root) (value _root) [] hash_fn = Ok true.
Proof.
  intros E. apply build_root in E as (l & r & _ & ->).
  unfold get_proof, get_location, verify_proof. simpl.
  now rewrite !bytes_eqb_refl.
Qed.

(** ** The combine operation *)

Lemma byte_to_N_inj (a b : byte) : Byte.to_N a = Byte.to_N b -> a = b.
Proof.
  intros E. pose proof (Byte.of_to_N a) as Ha. pose proof (Byte.of_to_N b) as Hb.
  rewrite E in Ha. congruence.
Qed.

Lemma byte_xor_self (a : byte) : byte_xor a a = x00.
Proof. apply byte_to_N_inj. now rewrite byte_xor_to_N, N.lxor_nilpotent. Qed.

Lemma byte_xor_involutive (a b : byte) : byte_xor (byte_xor a b) b = a.
Proof.
  apply byte_to_N_inj.
  now rewrite !byte_xor_to_N, N.lxor_assoc, N.lxor_nilpotent, N.lxor_0_r.
Qed.

Lemma zip_xor_length (a b : bytes) :
  length a = length b -> length (zip_xor a b) = length a.
Proof.
  intros E. unfold zip_xor. rewrite length_map, length_combine. lia.
Qed.

Lemma zip_xor_involutive (a : bytes) :
  forall b, length a = length b -> zip_xor (zip_xor a b) b = a.
Proof.
  unfold zip_xor. induction a as [|x a IH]; intros [|y b] E; try discriminate E.
  - reflexivity.
  - simpl. rewrite byte_xor_involutive. f_equal. apply IH.
    now injection E.
Qed.

Lemma zip_xor_self (a : bytes) : zip_xor a a = repeat x00 (length a).
Proof.
  unfold zip_xor. induction a as [|x a IH]; trivial.
  simpl. now rewrite byte_xor_self, IH.
Qed.

(** X4. [bytes_xor] is its own inverse: when it returns, the result has the
    length of the operands and combining it again with one operand gives
    back the other. *)
Theorem bytes_xor_involution (a b x : bytes) :
  bytes_xor a b = Ok x ->
  length x = length a /\ bytes_xor x b = Ok a /\ bytes_xor x a = Ok b.
Proof.
  intros E. apply bytes_xor_Ok in E as [L ->].
  pose proof (zip_xor_length a b L) as Lx. split; trivial. split.
  - rewrite bytes_xor_same_length by congruence.
    now rewrite zip_xor_involutive.
  - rewrite bytes_xor_same_length by congruence.
    rewrite (zip_xor_comm a b), zip_xor_involutive; congruence.
Qed.

(** X5. The last entry of a proof and the block hash are interchangeable:
    [verify_proof] gives the same outcome, error included, when the two are
    exchanged. *)
Theorem verify_proof_swap_leaf_sibling (hash_fn : HashFn)
        (root_hash a b : bytes) (proof : list bytes) :
  verify_proof root_hash a (proof ++ [b]) hash_fn
  = verify_proof root_hash b (proof ++ [a]) hash_fn.
Proof.
  unfold verify_proof. rewrite !rev_unit. cbn [fold_proof].
  now rewrite (bytes_xor_comm a b).
Qed.

(** ** Edge cases of the builder *)

(** X6. An empty block list never gives a tree: whatever the recursion
    depth allowed, the builder recurses on the empty group until the depth
    is exhausted. *)
Theorem empty_input_never_returns (hash_fn : HashFn) (fuel : nat) :
  _buildTree hash_fn fuel [] = RecursionError.
Proof. unfold _buildTree. simpl map. apply build_nil. Qed.

(** X7. A single block is paired with its own copy, so the root hash is the
    hash of a string of zero bytes and says nothing of the block: two
    single-block trees whose leaf hashes have the same length compare
    equal. *)
Theorem single_block_trees_same_root (hash_fn : HashFn) (fuel fuel' : nat)
        (a b : bytes) :
  length (hash_fn a) = length (hash_fn b) ->
  exists ta tb,
    _buildTree hash_fn (S fuel) [a] = Ok ta
    /\ _buildTree hash_fn (S fuel') [b] = Ok tb
    /\ value ta = hash_fn (repeat x00 (length (hash_fn a)))
    /\ content ta = a ++ a
    /\ compare_trees ta tb = true.
Proof.
  intros E. unfold _buildTree, compare_trees. simpl. unfold join. simpl.
  rewrite !bytes_xor_same_length by reflexivity. simpl.
  do 2 eexists. split; [reflexivity|]. split; [reflexivity|]. simpl.
  rewrite !zip_xor_self, E.
  split; [reflexivity|]. split; [reflexivity|]. apply bytes_eqb_refl.
Qed.

(** X8. Two blocks whose hashes differ in length cannot be combined: the
    builder raises [AssertionError] instead of returning a tree. *)
Theorem two_blocks_length_mismatch (hash_fn : HashFn) (fuel : nat)
        (a b : bytes) :
  length (hash_fn a) <> length (hash_fn b) ->
  _buildTree hash_fn (S fuel) [a; b] = AssertionError.
Proof.
  intros NE. unfold _buildTree. simpl. unfold join. simpl.
  now rewrite bytes_xor_mismatch.
Qed.

(** ** The root hash as a function of the leaf hashes *)

Lemma pad_map_value (g1 g2 : list Node) :
  map value g1 = map value g2 -> map value (pad g1) = map value (pad g2).
Proof.
  intros E.
  assert (length g1 = length g2) as L
      by (rewrite <- (length_map value g1), E; apply length_map).
  destruct (parity_cases (length g1)) as [P|P].
  - rewrite !pad_even; trivial. now rewrite <- L.
  - destruct (pad_odd g1 P) as (x1 & L1 & ->).
    destruct (pad_odd g2) as (x2 & L2 & ->); [now rewrite <- L|].
    apply last_node_split in L1 as [f1 ->]. apply last_node_split in L2 as [f2 ->].
    rewrite !map_app in *. simpl in *.
    apply app_inj_tail in E as [Ef Ex]. now rewrite Ef, Ex.
Qed.

Lemma build_value_congruence (hash_fn : HashFn) (fuel : nat) :
  forall g1 g2 t1 t2,
    map value g1 = map value g2 ->
    _buildTreeRec hash_fn fuel g1 = Ok t1 ->
    _buildTreeRec hash_fn fuel g2 = Ok t2 ->
    value t1 = value t2.
Proof.
  induction fuel as [|fuel IH]; intros g1 g2 t1 t2 E E1 E2; [discriminate|].
  apply pad_map_value in E.
  assert (length (pad g1) = length (pad g2)) as L
      by (rewrite <- (length_map value (pad g1)), E; apply length_map).
  destruct (Nat.eq_dec (length (pad g1)) 2) as [Two|NotTwo].
  - destruct (pad g1) as [|a0 [|a1 [|? ?]]] eqn:P1; try discriminate Two.
    destruct (pad g2) as [|b0 [|b1 [|? ?]]] eqn:P2; try discriminate L.
    rewrite (build_two _ _ _ _ _ P1) in E1.
    rewrite (build_two _ _ _ _ _ P2) in E2.
    apply join_Ok in E1 as [_ ->]. apply join_Ok in E2 as [_ ->].
    simpl in *. injection E as -> ->. reflexivity.
  - rewrite build_split in E1, E2 by congruence. cbv zeta in E1, E2.
    apply bind_Ok in E1 as (l1 & El1 & E1).
    apply bind_Ok in E1 as (r1 & Er1 & E1).
    apply bind_Ok in E2 as (l2 & El2 & E2).
    apply bind_Ok in E2 as (r2 & Er2 & E2).
    rewrite <- L in El2, Er2.
    assert (value l1 = value l2) as Vl.
    { eapply IH; [|exact El1|exact El2]. now rewrite <- !firstn_map, E. }
    assert (value r1 = value r2) as Vr.
    { eapply IH; [|exact Er1|exact Er2]. now rewrite <- !skipn_map, E. }
    apply join_Ok in E1 as [_ ->]. apply join_Ok in E2 as [_ ->].
    simpl. now rewrite Vl, Vr.
Qed.

(** X9. Repeating the last block of a list of odd length does not change
    the root hash: the tree of the list and the tree of the list with its
    last block given twice compare equal. *)
Theorem repeated_last_block_same_root (hash_fn : HashFn) (fuel fuel' : nat)
        (values : list bytes) (x : bytes) (t t' : Node) :
  length (values ++ [x]) mod 2 = 1 ->
  _buildTree hash_fn fuel (values ++ [x]) = Ok t ->
  _buildTree hash_fn fuel' (values ++ [x; x]) = Ok t' ->
  compare_trees t t' = true.
Proof.
  unfold _buildTree, compare_trees. intros Odd E E'.
  apply bytes_eqb_eq.
  rewrite <- build_of_padded in E.
  apply build_fuel_mono with (fuel' := Nat.max fuel fuel') in E; [|lia].
  apply build_fuel_mono with (fuel' := Nat.max fuel fuel') in E'; [|lia].
  eapply build_value_congruence; [|exact E|exact E'].
  destruct (pad_odd (map (leaf hash_fn) (values ++ [x]))) as (n & Ln & ->).
  { now rewrite length_map. }
  rewrite map_app in Ln. simpl in Ln.
  apply last_node_split in Ln as [front F].
  apply app_inj_tail in F as [_ <-].
  rewrite !map_app. simpl. now rewrite <- app_assoc.
Qed.

(** ** Recursion depth *)

Lemma build_total_log (hash_fn : HashFn) (L : nat) :
  (forall x, length (hash_fn x) = L) ->
  forall fuel nodes,
    nodes <> [] -> 1 <= fuel -> length nodes <= 2 ^ fuel ->
    Forall (fun n => length (value n) = L) nodes ->
    exists t, _buildTreeRec hash_fn fuel nodes = Ok t /\ length (value t) = L.
Proof.
  intros HL. induction fuel as [|fuel IH]; intros nodes NE F1 Le F; [lia|].
  assert (Forall (fun n => length (value n) = L) (pad nodes)) as Fp
      by (apply pad_Forall; trivial).
  pose proof (pad_length nodes) as PL.
  pose proof (pad_length_even nodes) as PE.
  pose proof (Nat.div_mod_eq (length (pad nodes)) 2) as DM.
  destruct (parity_cases (length nodes)) as [Pn|Pn]; rewrite Pn in PL;
    cbn [Nat.pow] in Le.
  all: destruct (halves (pad nodes)) as [(n0 & n1 & Eg)|(H2 & Hl & Hf & Hs & Ha)];
    [apply pad_length_even
    |intros Eg; now apply pad_nil_inv in Eg
    |rewrite (build_two _ _ _ _ _ Eg); rewrite Eg in Fp;
     inversion Fp as [|? ? V0 Fp']; inversion Fp' as [|? ? V1 _]; subst;
     rewrite join_same_length by congruence;
     eexists; split; [reflexivity|apply HL]
    |].
  all: rewrite build_split by lia; cbv zeta;
    rewrite <- Ha in Fp; apply Forall_app in Fp as [Ff Fs];
    assert (fuel <> 0) as Fz
        by (intros ->; cbn [Nat.pow] in Le; lia);
    destruct (IH (firstn (length (pad nodes) / 2) (pad nodes)))
      as (l & -> & Ll); trivial;
    [intros E0; rewrite E0 in Hf; cbn [length] in Hf; lia|lia|lia|];
    destruct (IH (skipn (length (pad nodes) / 2) (pad nodes)))
      as (r & -> & Lr); trivial;
    [intros E0; rewrite E0 in Hs; cbn [length] in Hs; lia|lia|lia|];
    simpl; rewrite join_same_length by congruence;
    eexists; split; [reflexivity|apply HL].
Qed.

(** ** The shape of the tree *)

Lemma tree_depth_small (n : nat) : 1 <= n <= 2 -> tree_depth n = 1.
Proof.
  intros [Lo Hi]. unfold tree_depth.
  assert (n = 1 \/ n = 2) as [->| ->] by lia; reflexivity.
Qed.

Lemma tree_depth_bounds (n : nat) :
  1 <= n -> n <= 2 ^ tree_depth n /\ 2 ^ tree_depth n <= 2 * n.
Proof.
  intros Lo. unfold tree_depth.
  destruct (Nat.eq_dec n 1) as [->|N1]; [simpl; lia|].
  pose proof (Nat.log2_up_spec n ltac:(lia)) as [Below Above].
  pose proof (Nat.log2_up_pos n ltac:(lia)) as Pos.
  rewrite Nat.max_r by lia.
  destruct (Nat.log2_up n) as [|c]; [lia|].
  cbn [Nat.pred Nat.pow] in *. lia.
Qed.

(** X10. The calls of [_buildTreeRec] nest no deeper than the tree is high:
    with a hash of fixed output length and [n] blocks, [n] at least one,
    allowing [max 1 (ceil (log2 n))] nested calls is enough for the builder
    to return a tree. *)
Theorem recursion_depth (hash_fn : HashFn) (L fuel : nat)
        (values : list bytes) :
  (forall x, length (hash_fn x) = L) ->
  values <> [] ->
  tree_depth (length values) <= fuel ->
  exists t, _buildTree hash_fn fuel values = Ok t.
Proof.
  intros HL NE Le. unfold _buildTree.
  assert (1 <= length values) as N1
      by (destruct values; [contradiction|simpl; lia]).
  destruct (tree_depth_bounds (length values) N1) as [Fit _].
  assert (1 <= tree_depth (length values)) as D1
      by (unfold tree_depth; lia).
  assert (2 ^ tree_depth (length values) <= 2 ^ fuel) as Mono
      by (apply Nat.pow_le_mono_r; lia).
  destruct (build_total_log hash_fn L HL fuel (map (leaf hash_fn) values))
    as (t & E & _).
  - destruct values; [contradiction|discriminate].
  - lia.
  - rewrite length_map. lia.
  - apply Forall_forall. intros n I. apply in_map_iff in I as (e & <- & _).
    apply HL.
  - now exists t.
Qed.

Lemma tree_depth_step (n half : nat) :
  2 <= half -> n + n mod 2 = 2 * half ->
  tree_depth n = S (tree_depth half).
Proof.
  intros H2 E. unfold tree_depth.
  pose proof (Nat.mod_upper_bound n 2 ltac:(lia)) as MB.
  pose proof (Nat.log2_up_spec half ltac:(lia)) as [Below Above].
  pose proof (Nat.log2_up_pos half ltac:(lia)) as Pos.
  rewrite (Nat.max_r 1 (Nat.log2_up half)) by lia.
  assert (Nat.log2_up n = S (Nat.log2_up half)) as ->.
  { apply Nat.log2_up_unique; [lia|].
    destruct (Nat.log2_up half) as [|c]; [lia|].
    cbn [Nat.pred Nat.pow] in *. lia. }
  lia.
Qed.

Lemma descendants_unfold (n : Node) :
  descendants n
  = n :: on_node (left n) [] descendants ++ on_node (right n) [] descendants.
Proof. destruct n. reflexivity. Qed.

Lemma frontier_leaf (n : Node) :
  left n = None -> right n = None -> frontier n = [n].
Proof.
  intros Ln Rn. unfold frontier. rewrite descendants_unfold, Ln, Rn. simpl.
  unfold is_leaf. now rewrite Ln, Rn.
Qed.

Lemma frontier_children (n l r : Node) :
  left n = Some l -> right n = Some r -> frontier n = frontier l ++ frontier r.
Proof.
  intros Ln Rn. unfold frontier. rewrite (descendants_unfold n), Ln, Rn.
  cbn [on_node filter]. unfold is_leaf at 1. rewrite Ln.
  apply filter_app.
Qed.

Lemma build_perfect (hash_fn : HashFn) (fuel : nat) (nodes : list Node)
      (t : Node) :
  _buildTreeRec hash_fn fuel nodes = Ok t ->
  Forall (fun n => left n = None /\ right n = None) nodes ->
  perfect (tree_depth (length nodes)) t.
Proof.
  intros E.
  eapply (build_ind hash_fn
            (fun nodes t =>
               Forall (fun n => left n = None /\ right n = None) nodes ->
               perfect (tree_depth (length nodes)) t));
    [| |exact E]; clear fuel nodes t E.
  - intros nodes n0 n1 t Eg J F.
    assert (forall x : Node,
               left x = None /\ right x = None ->
               left (copy x) = None /\ right (copy x) = None) as C
        by (intros [] ?; trivial).
    apply (pad_Forall _ _ C) in F.
    pose proof (pad_length nodes) as PL.
    pose proof (Nat.mod_upper_bound (length nodes) 2 ltac:(lia)) as MB.
    rewrite Eg in F, PL. cbn [length] in PL.
    rewrite tree_depth_small by lia.
    apply Forall_cons_iff in F as [L0 F]. apply Forall_cons_iff in F as [L1 _].
    apply join_Ok in J as [_ ->]. now exists n0, n1.
  - intros nodes l r t g half H2 Hl Hf Hs IHl IHr J F.
    assert (forall x : Node,
               left x = None /\ right x = None ->
               left (copy x) = None /\ right (copy x) = None) as C
        by (intros [] ?; trivial).
    apply (pad_Forall _ _ C) in F. fold g in F.
    rewrite <- (firstn_skipn half g) in F. apply Forall_app in F as [Ff Fs].
    rewrite Hf in IHl. rewrite Hs in IHr.
    rewrite (tree_depth_step (length nodes) half); trivial.
    + apply join_Ok in J as [_ ->]. exists l, r. auto.
    + rewrite <- Hl. unfold g. now rewrite pad_length.
Qed.

Lemma perfect_frontier (depth : nat) :
  forall t, perfect depth t -> length (frontier t) = 2 ^ depth.
Proof.
  induction depth as [|d IH]; intros t P.
  - destruct P as [Lt Rt]. now rewrite frontier_leaf.
  - destruct P as (l & r & Lt & Rt & Pl & Pr).
    rewrite (frontier_children _ _ _ Lt Rt), length_app, (IH l), (IH r) by trivial.
    cbn [Nat.pow]. lia.
Qed.

Lemma perfect_paths (depth : nat) :
  forall t p m,
    perfect depth t -> node_at t p = Some m ->
    length p <= depth /\ perfect (depth - length p) m.
Proof.
  induction depth as [|d IH]; intros t p m P A.
  - destruct P as [Lt Rt]. destruct p as [|bit p].
    + injection A as <-. split; [trivial|]. now split.
    + simpl in A. destruct (child t bit) as [c|] eqn:C; [|discriminate].
      apply child_cases in C as [[_ C]|[_ C]]; congruence.
  - destruct p as [|bit p].
    + injection A as <-. split; [simpl; lia|exact P].
    + destruct P as (l & r & Lt & Rt & Pl & Pr).
      simpl in A. destruct (child t bit) as [c|] eqn:C; [|discriminate].
      apply child_cases in C as [[_ C]|[_ C]].
      * assert (c = l) as -> by congruence.
        destruct (IH l p m Pl A). simpl. split; [lia|trivial].
      * assert (c = r) as -> by congruence.
        destruct (IH r p m Pr A). simpl. split; [lia|trivial].
Qed.

Lemma perfect_leaf_iff (depth : nat) (m : Node) :
  perfect depth m -> (is_leaf m = true <-> depth = 0).
Proof.
  destruct depth as [|d]; intros P.
  - destruct P as [Lm Rm]. unfold is_leaf. rewrite Lm, Rm. tauto.
  - destruct P as (l & r & Lm & Rm & _). unfold is_leaf. rewrite Lm.
    split; [discriminate|lia].
Qed.

Lemma buildTree_perfect (hash_fn : HashFn) (fuel : nat) (values : list bytes)
      (t : Node) :
  _buildTree hash_fn fuel values = Ok t ->
  perfect (tree_depth (length values)) t /\ 1 <= length values.
Proof.
  intros E. split.
  - rewrite <- (length_map (leaf hash_fn) values).
    eapply build_perfect; [exact E|].
    apply Forall_forall. intros n I. apply in_map_iff in I as (e & <- & _).
    now split.
  - destruct values; [|simpl; lia].
    unfold _buildTree in E. simpl in E. now rewrite build_nil in E.
Qed.

(** X11. The tree built of [n] blocks is a perfect binary tree of depth
    [max 1 (ceil (log2 n))]: it has [2 ^ depth] leaves, between [n] and
    [2 * n], every path to a node has at most [depth] bits, and the nodes
    at the end of a path of [depth] bits are exactly the leaves. *)
Theorem built_tree_is_perfect (hash_fn : HashFn) (fuel : nat)
        (values : list bytes) (_root : Node) :
  _buildTree hash_fn fuel values = Ok _root ->
  let depth := tree_depth (length values) in
  perfect depth _root
  /\ length (frontier _root) = 2 ^ depth
  /\ length values <= 2 ^ depth <= 2 * length values
  /\ forall p m,
      node_at _root p = Some m ->
      length p <= depth /\ (is_leaf m = true <-> length p = depth).
Proof.
  intros E depth.
  destruct (buildTree_perfect hash_fn fuel values _root E) as [P NE].
  fold depth in P.
  split; [exact P|]. split; [now apply perfect_frontier|].
  split; [apply tree_depth_bounds; exact NE|].
  intros p m A. destruct (perfect_paths depth _root p m P A) as [Le Pm].
  split; trivial. rewrite (perfect_leaf_iff _ _ Pm). lia.
Qed.

(** X12. A proof returned by [get_proof] on a built tree has at most as
    many entries as the tree is deep, and exactly that many when the hash
    is the value of no internal node, so that the location is a leaf: three
    entries for each of eight blocks. *)
Theorem proof_length (hash_fn : HashFn) (fuel : nat) (values : list bytes)
        (_root : Node) (h : bytes) (proof : list bytes) :
  _buildTree hash_fn fuel values = Ok _root ->
  get_proof _root h = Some proof ->
  length proof <= tree_depth (length values)
  /\ ((forall n, In n (descendants _root) -> is_internal n = true ->
                 value n <> h) ->
      length proof = tree_depth (length values)).
Proof.
  intros E G.
  pose proof (buildTree_shape _ _ _ _ E) as S.
  destruct (buildTree_perfect hash_fn fuel values _root E) as [P _].
  unfold get_proof in G.
  destruct (get_location _root h) as [p|] eqn:Loc; [|discriminate].
  destruct (located_proof_verifies hash_fn _ _ _ _
              (block_leaf_is_leaf hash_fn values) S Loc)
    as (proof' & G' & _ & _ & Len & _).
  assert (proof' = proof) as -> by congruence.
  unfold get_location, _get_location_rec in Loc. cbn [on_node] in Loc.
  apply locate_sound in Loc as (q & m & Ep & A & M & _).
  simpl in Ep. subst q.
  destruct (perfect_paths _ _ _ _ P A) as [Le Pm].
  rewrite Len. split; trivial.
  intros Internal.
  destruct (tree_depth (length values) - length p) as [|d] eqn:D; [lia|].
  exfalso. destruct Pm as (l & r & Lm & Rm & _).
  apply (Internal m).
  - apply descendants_node_at. now exists p.
  - unfold is_internal. now rewrite Lm, Rm.
  - unfold matches in M. apply andb_prop in M as [M _].
    now apply bytes_eqb_eq.
Qed.

(** ** Leaves, order and content *)

Lemma filter_pad_unflagged (nodes : list Node) :
  filter (fun n => negb (is_copied n)) (pad nodes)
  = filter (fun n => negb (is_copied n)) nodes.
Proof.
  destruct (parity_cases (length nodes)) as [P|P].
  - now rewrite pad_even.
  - destruct (pad_odd nodes P) as (x & _ & ->).
    rewrite filter_app. simpl. apply app_nil_r.
Qed.

Lemma build_frontier (hash_fn : HashFn) (fuel : nat) (nodes : list Node)
      (t : Node) :
  _buildTreeRec hash_fn fuel nodes = Ok t ->
  Forall (fun n => left n = None /\ right n = None) nodes ->
  filter (fun n => negb (is_copied n)) (frontier t)
  = filter (fun n => negb (is_copied n)) nodes
  /\ content t = concat (map content (frontier t)).
Proof.
  intros E.
  eapply (build_ind hash_fn
            (fun nodes t =>
               Forall (fun n => left n = None /\ right n = None) nodes ->
               filter (fun n => negb (is_copied n)) (frontier t)
               = filter (fun n => negb (is_copied n)) nodes
               /\ content t = concat (map content (frontier t))));
    [| |exact E]; clear fuel nodes t E.
  - intros nodes n0 n1 t Eg J F.
    assert (forall x : Node,
               left x = None /\ right x = None ->
               left (copy x) = None /\ right (copy x) = None) as C
        by (intros [] ?; trivial).
    apply (pad_Forall _ _ C) in F. rewrite Eg in F.
    apply Forall_cons_iff in F as [[L0 R0] F].
    apply Forall_cons_iff in F as [[L1 R1] _].
    apply join_Ok in J as [_ ->].
    rewrite (frontier_children (mkNode (Some n0) (Some n1) _ _ _) n0 n1
               eq_refl eq_refl).
    rewrite !frontier_leaf by trivial.
    rewrite <- (filter_pad_unflagged nodes), Eg. simpl.
    now rewrite app_nil_r.
  - intros nodes l r t g half _ _ _ _ IHl IHr J F.
    assert (forall x : Node,
               left x = None /\ right x = None ->
               left (copy x) = None /\ right (copy x) = None) as C
        by (intros [] ?; trivial).
    apply (pad_Forall _ _ C) in F. fold g in F.
    rewrite <- (firstn_skipn half g) in F. apply Forall_app in F as [Ff Fs].
    destruct (IHl Ff) as [Ol Cl]. destruct (IHr Fs) as [Or Cr].
    apply join_Ok in J as [_ ->].
    rewrite (frontier_children (mkNode (Some l) (Some r) _ _ _) l r
               eq_refl eq_refl).
    rewrite filter_app, Ol, Or, <- filter_app, firstn_skipn.
    split; [apply filter_pad_unflagged|].
    cbn [content]. now rewrite map_app, concat_app, Cl, Cr.
Qed.

Lemma buildTree_frontier (hash_fn : HashFn) (fuel : nat)
      (values : list bytes) (t : Node) :
  _buildTree hash_fn fuel values = Ok t ->
  filter (fun n => negb (is_copied n)) (frontier t) = map (leaf hash_fn) values
  /\ content t = concat (map content (frontier t)).
Proof.
  intros E.
  destruct (build_frontier hash_fn fuel (map (leaf hash_fn) values) t E)
    as [O C].
  - apply Forall_forall. intros n I. apply in_map_iff in I as (e & <- & _).
    now split.
  - split; [|exact C]. rewrite O.
    clear. induction values as [|b values IH]; trivial.
    simpl. now rewrite IH.
Qed.

(** X13. Padding keeps the blocks in order: the leaves of a built tree that
    are not flagged, read from left to right, are the leaves of the blocks
    in the order of the input, each once; and the content of the root is
    the concatenation of the contents of all the leaves, copies included. *)
Theorem unflagged_leaves_are_blocks (hash_fn : HashFn) (fuel : nat)
        (values : list bytes) (_root : Node) :
  _buildTree hash_fn fuel values = Ok _root ->
  filter (fun n => negb (is_copied n)) (frontier _root)
  = map (leaf hash_fn) values
  /\ content _root = concat (map content (frontier _root)).
Proof.
  intros E.
  assert (Forall (fun n => left n = None /\ right n = None)
                 (map (leaf hash_fn) values)) as Leaves.
  { apply Forall_forall. intros n I. apply in_map_iff in I as (e & <- & _).
    now split. }
  destruct (build_frontier hash_fn fuel _ _root E Leaves) as [Order Content].
  split; [|exact Content]. rewrite Order.
  apply forallb_filter_id, forallb_forall.
  intros n I. now apply in_map_iff in I as (e & <- & _).
Qed.

Lemma filter_same_length {A : Type} (f : A -> bool) (l : list A) :
  length (filter f l) = length l -> filter f l = l.
Proof.
  induction l as [|a l IH]; trivial. simpl.
  pose proof (filter_length_le f l) as Le.
  destruct (f a); simpl; intros E.
  - f_equal. apply IH. lia.
  - lia.
Qed.

Lemma tree_depth_pow2 (k : nat) : tree_depth (2 ^ S k) = S k.
Proof. unfold tree_depth. rewrite Nat.log2_up_pow2 by lia. lia. Qed.

(** X14. A list of [2 ^ k] blocks, [k] at least one, is never padded: the
    leaves of its tree are the leaves of the blocks in order, none of them
    flagged, and the content of the root is the concatenation of the
    blocks. *)
Theorem power_of_two_no_padding (hash_fn : HashFn) (k fuel : nat)
        (values : list bytes) (_root : Node) :
  length values = 2 ^ S k ->
  _buildTree hash_fn fuel values = Ok _root ->
  frontier _root = map (leaf hash_fn) values
  /\ Forall (fun n => is_copied n = false) (frontier _root)
  /\ content _root = concat values.
Proof.
  intros Len E.
  destruct (buildTree_frontier hash_fn fuel values _root E) as [O C].
  destruct (buildTree_perfect hash_fn fuel values _root E) as [P _].
  apply perfect_frontier in P. rewrite Len, tree_depth_pow2 in P.
  assert (frontier _root = map (leaf hash_fn) values) as F.
  { rewrite <- O. symmetry. apply filter_same_length.
    now rewrite O, length_map, P. }
  split; [exact F|]. split.
  - rewrite F. apply Forall_forall. intros n I.
    now apply in_map_iff in I as (e & <- & _).
  - rewrite C, F, map_map. simpl. now rewrite map_id.
Qed.

(** ** Proofs in two parts *)

(** X15. A proof can be checked in two parts: when the lower entries take
    the block hash to an intermediate hash, checking the whole proof
    against the root hash is checking the upper entries from that
    intermediate hash. *)
Theorem verify_proof_compose (hash_fn : HashFn)
        (root_hash mid_hash block_hash : bytes) (upper lower : list bytes) :
  verify_proof mid_hash block_hash lower hash_fn = Ok true ->
  verify_proof root_hash block_hash (upper ++ lower) hash_fn
  = verify_proof root_hash mid_hash upper hash_fn.
Proof.
  unfold verify_proof. intros E. rewrite rev_app_distr, fold_proof_app.
  destruct (fold_proof hash_fn block_hash (rev lower)) as [c| |];
    try discriminate E.
  simpl in E. injection E as E. apply bytes_eqb_eq in E. now subst c.
Qed.

(** X16. [verify_block] accepts the hash of every block of the input
    against the root hash of the tree, and rejects everything against any
    other root hash. *)
Theorem verify_block_accepts_blocks (hash_fn : HashFn) (fuel : nat)
        (values : list bytes) (_root : Node) :
  _buildTree hash_fn fuel values = Ok _root ->
  (forall b, In b values ->
             verify_block _root (value _root) (hash_fn b) = true)
  /\ (forall root_hash h,
         root_hash <> value _root -> verify_block _root root_hash h = false).
Proof.
  intros E. split.
  - intros b I. apply verify_block_true. split; trivial.
    exists (leaf hash_fn b). split; trivial.
    eapply build_contains; [exact E|]. now apply in_map.
  - intros root_hash h NE. unfold verify_block.
    apply andb_false_intro1, bytes_eqb_neq. congruence.
Qed.

(** ** Concrete runs of the further properties *)

Lemma verify_block_iff_proof_witness :
  _buildTree toy_hash 8 poets = Ok poets_tree
  /\ (verify_block poets_tree (value poets_tree) (toy_hash invalid) = true
      <-> exists proof, get_proof poets_tree (toy_hash invalid) = Some proof)
  /\ (forall proof,
         get_proof poets_tree (toy_hash invalid) = Some proof ->
         verify_proof (value poets_tree) (toy_hash invalid) proof toy_hash
         = Ok true).
Proof.
  assert (_buildTree toy_hash 8 poets = Ok poets_tree) as H1 by reflexivity.
  refine (conj H1 _).
  exact (verify_block_iff_proof toy_hash 8 poets poets_tree (toy_hash invalid) H1).
Defined.

Lemma root_hash_is_located_witness :
  _buildTree toy_hash 8 poets = Ok poets_tree
  /\ get_location poets_tree (value poets_tree) = Some []
  /\ get_proof poets_tree (value poets_tree) = Some []
  /\ verify_proof (value poets_tree) (value poets_tree) [] toy_hash = Ok true.
Proof.
  assert (_buildTree toy_hash 8 poets = Ok poets_tree) as H1 by reflexivity.
  refine (conj H1 _).
  exact (root_hash_is_located toy_hash 8 poets poets_tree H1).
Defined.

Lemma bytes_xor_involution_witness :
  bytes_xor [x0f; xf0] [xff; x01] = Ok [xf0; xf1]
  /\ length [xf0; xf1] = length [x0f; xf0]
  /\ bytes_xor [xf0; xf1] [xff; x01] = Ok [x0f; xf0]
  /\ bytes_xor [xf0; xf1] [x0f; xf0] = Ok [xff; x01].
Proof.
  assert (bytes_xor [x0f; xf0] [xff; x01] = Ok [xf0; xf1]) as H1 by reflexivity.
  refine (conj H1 _).
  exact (bytes_xor_involution [x0f; xf0] [xff; x01] [xf0; xf1] H1).
Defined.

Lemma single_block_trees_same_root_witness :
  length (toy_hash (nth 0 poets [])) = length (toy_hash (nth 1 poets []))
  /\ exists ta tb,
      _buildTree toy_hash 1 [nth 0 poets []] = Ok ta
      /\ _buildTree toy_hash 1 [nth 1 poets []] = Ok tb
      /\ value ta = toy_hash (repeat x00 (length (toy_hash (nth 0 poets []))))
      /\ content ta = nth 0 poets [] ++ nth 0 poets []
      /\ compare_trees ta tb = true.
Proof.
  assert (length (toy_hash (nth 0 poets []))
          = length (toy_hash (nth 1 poets []))) as H1 by reflexivity.
  refine (conj H1 _).
  exact (single_block_trees_same_root toy_hash 0 0
           (nth 0 poets []) (nth 1 poets []) H1).
Defined.

Lemma two_blocks_length_mismatch_witness :
  length (identity_hash [x00]) <> length (identity_hash [x00; x01])
  /\ _buildTree identity_hash 1 [[x00]; [x00; x01]] = AssertionError.
Proof.
  assert (length (identity_hash [x00]) <> length (identity_hash [x00; x01]))
    as H1 by (simpl; lia).
  refine (conj H1 _).
  exact (two_blocks_length_mismatch identity_hash 0 [x00] [x00; x01] H1).
Defined.

Lemma repeated_last_block_same_root_witness :
  length (firstn 2 poets ++ [nth 2 poets []]) mod 2 = 1
  /\ _buildTree toy_hash 2 (firstn 2 poets ++ [nth 2 poets []])
     = Ok (tree_of (_buildTree toy_hash 2 (firstn 3 poets)))
  /\ _buildTree toy_hash 2 (firstn 2 poets ++ [nth 2 poets []; nth 2 poets []])
     = Ok (tree_of (_buildTree toy_hash 2
                      (firstn 3 poets ++ [nth 2 poets []])))
  /\ compare_trees
       (tree_of (_buildTree toy_hash 2 (firstn 3 poets)))
       (tree_of (_buildTree toy_hash 2 (firstn 3 poets ++ [nth 2 poets []])))
     = true.
Proof.
  assert (length (firstn 2 poets ++ [nth 2 poets []]) mod 2 = 1) as H1
      by reflexivity.
  assert (_buildTree toy_hash 2 (firstn 2 poets ++ [nth 2 poets []])
          = Ok (tree_of (_buildTree toy_hash 2 (firstn 3 poets)))) as H2
      by reflexivity.
  assert (_buildTree toy_hash 2
            (firstn 2 poets ++ [nth 2 poets []; nth 2 poets []])
          = Ok (tree_of (_buildTree toy_hash 2
                           (firstn 3 poets ++ [nth 2 poets []])))) as H3
      by reflexivity.
  refine (conj H1 (conj H2 (conj H3 _))).
  exact (repeated_last_block_same_root toy_hash 2 2 (firstn 2 poets)
           (nth 2 poets []) _ _ H1 H2 H3).
Defined.

Lemma recursion_depth_witness :
  (forall x, length (toy_hash x) = 2)
  /\ poets <> []
  /\ tree_depth (length poets) <= 3
  /\ exists t, _buildTree toy_hash 3 poets = Ok t.
Proof.
  assert (forall x, length (toy_hash x) = 2) as H1 by (intros x; reflexivity).
  assert (poets <> []) as H2 by (vm_compute; discriminate).
  assert (tree_depth (length poets) <= 3) as H3 by (vm_compute; lia).
  refine (conj H1 (conj H2 (conj H3 _))).
  exact (recursion_depth toy_hash 2 3 poets H1 H2 H3).
Defined.

Lemma built_tree_is_perfect_witness :
  _buildTree toy_hash 3 (firstn 5 poets)
  = Ok (tree_of (_buildTree toy_hash 3 (firstn 5 poets)))
  /\ tree_depth (length (firstn 5 poets)) = 3
  /\ perfect 3 (tree_of (_buildTree toy_hash 3 (firstn 5 poets)))
  /\ length (frontier (tree_of (_buildTree toy_hash 3 (firstn 5 poets)))) = 8.
Proof.
  assert (_buildTree toy_hash 3 (firstn 5 poets)
          = Ok (tree_of (_buildTree toy_hash 3 (firstn 5 poets)))) as H1
      by reflexivity.
  refine (conj H1 (conj eq_refl _)).
  destruct (built_tree_is_perfect toy_hash 3 (firstn 5 poets) _ H1)
    as (P & F & _).
  exact (conj P F).
Defined.

Lemma proof_length_witness :
  _buildTree toy_hash 8 poets = Ok poets_tree
  /\ exists proof,
      get_proof poets_tree (toy_hash (nth 4 poets [])) = Some proof
      /\ length proof <= tree_depth (length poets)
      /\ length proof = 3.
Proof.
  assert (_buildTree toy_hash 8 poets = Ok poets_tree) as H1 by reflexivity.
  refine (conj H1 _).
  destruct (get_proof poets_tree (toy_hash (nth 4 poets []))) as [proof|] eqn:G.
  - exists proof. split; [reflexivity|].
    destruct (proof_length toy_hash 8 poets poets_tree
                (toy_hash (nth 4 poets [])) proof H1 G) as [Le Eq].
    split; [exact Le|]. apply Eq.
    intros n In_n Int.
    apply (no_internal_collision_spec toy_hash poets_tree poets eq_refl
             n (nth 4 poets []) In_n Int).
    vm_compute. tauto.
  - vm_compute in G. discriminate G.
Defined.

Lemma unflagged_leaves_are_blocks_witness :
  _buildTree toy_hash 3 (firstn 5 poets)
  = Ok (tree_of (_buildTree toy_hash 3 (firstn 5 poets)))
  /\ filter (fun n => negb (is_copied n))
            (frontier (tree_of (_buildTree toy_hash 3 (firstn 5 poets))))
     = map (leaf toy_hash) (firstn 5 poets)
  /\ content (tree_of (_buildTree toy_hash 3 (firstn 5 poets)))
     = concat (map content
                   (frontier (tree_of (_buildTree toy_hash 3 (firstn 5 poets))))).
Proof.
  assert (_buildTree toy_hash 3 (firstn 5 poets)
          = Ok (tree_of (_buildTree toy_hash 3 (firstn 5 poets)))) as H1
      by reflexivity.
  refine (conj H1 _).
  exact (unflagged_leaves_are_blocks toy_hash 3 (firstn 5 poets) _ H1).
Defined.

Lemma power_of_two_no_padding_witness :
  length poets = 2 ^ 3
  /\ _buildTree toy_hash 8 poets = Ok poets_tree
  /\ frontier poets_tree = map (leaf toy_hash) poets
  /\ Forall (fun n => is_copied n = false) (frontier poets_tree)
  /\ content poets_tree = concat poets.
Proof.
  assert (length poets = 2 ^ 3) as H1 by reflexivity.
  assert (_buildTree toy_hash 8 poets = Ok poets_tree) as H2 by reflexivity.
  refine (conj H1 (conj H2 _)).
  exact (power_of_two_no_padding toy_hash 2 8 poets poets_tree H1 H2).
Defined.

Lemma verify_proof_compose_witness :
  verify_proof (toy_hash (zip_xor (toy_hash invalid) [x01; x02]))
               (toy_hash invalid) [[x01; x02]] toy_hash = Ok true
  /\ verify_proof (value poets_tree) (toy_hash invalid)
                  ([[x03; x04]] ++ [[x01; x02]]) toy_hash
     = verify_proof (value poets_tree)
                    (toy_hash (zip_xor (toy_hash invalid) [x01; x02]))
                    [[x03; x04]] toy_hash.
Proof.
  assert (verify_proof (toy_hash (zip_xor (toy_hash invalid) [x01; x02]))
                       (toy_hash invalid) [[x01; x02]] toy_hash = Ok true)
    as H1 by reflexivity.
  refine (conj H1 _).
  exact (verify_proof_compose toy_hash (value poets_tree) _ (toy_hash invalid)
           [[x03; x04]] [[x01; x02]] H1).
Defined.

Lemma verify_block_accepts_blocks_witness :
  _buildTree toy_hash 8 poets = Ok poets_tree
  /\ (forall b, In b poets ->
                verify_block poets_tree (value poets_tree) (toy_hash b) = true)
  /\ (forall root_hash h,
         root_hash <> value poets_tree ->
         verify_block poets_tree root_hash h = false).
Proof.
  assert (_buildTree toy_hash 8 poets = Ok poets_tree) as H1 by reflexivity.
  refine (conj H1 _).
  exact (verify_block_accepts_blocks toy_hash 8 poets poets_tree H1).
Defined.
